(** * StudentSwap: the messaging subsystem of [app.js]

    A shallow embedding of the conversation identity, the conversation list,
    the chat view and the subscription lifecycle of the marketplace client,
    together with the sign-up email check.

    The pure parts ([getConversationId], [validStudentEmail], the grouping
    of [loadConversations]) are functions.  The [async] functions of the
    messages page are resumptions: a function runs to its next [await],
    is suspended on the call it awaits, and is resumed with the reply.
    They are run in two ways: on their own ([complete]), and interleaved
    with each other and with the events of the page ([step], [run]).

    JavaScript strings are modelled by [string]: each [ascii] stands for one
    UTF-16 code unit in the range 0..255.  Comparison, splitting, joining,
    trimming and lower-casing below are the restriction of the JavaScript
    operations to that range. *)

From Stdlib Require Import String Ascii List ZArith NArith Bool Arith Lia.
From Stdlib Require Import Sorting.Sorted Sorting.Permutation.
Import ListNotations.

Local Open Scope string_scope.
Local Open Scope list_scope.

(** ** JavaScript string primitives *)

Module JS.

(** [Array.prototype.sort()] without a comparator orders strings by code
    units and is stable; an insertion sort that keeps equal elements in
    their original order computes the same array. *)
Fixpoint insert_sorted (x : string) (l : list string) : list string :=
  match l with
  | [] => [x]
  | y :: l' => if String.ltb y x || String.eqb y x
               then y :: insert_sorted x l'
               else x :: l
  end.

Definition sort (l : list string) : list string :=
  fold_left (fun acc x => insert_sorted x acc) l [].

(** [Array.prototype.join(sep)]. *)
Fixpoint join (sep : string) (l : list string) : string :=
  match l with
  | [] => ""
  | [x] => x
  | x :: l' => x ++ sep ++ join sep l'
  end.

(** [String.prototype.split(sep)] for a separator of one code unit, the
    only kind the program uses (['-'] and ['@']).  The result is never
    empty: a string without separator is returned whole. *)
Fixpoint split (sep : ascii) (s : string) : list string :=
  match s with
  | EmptyString => [""]
  | String c s' =>
      if Ascii.eqb c sep then "" :: split sep s'
      else match split sep s' with
           | [] => [String c ""]
           | h :: t => String c h :: t
           end
  end.

(** Number of occurrences of a code unit. *)
Fixpoint count (c : ascii) (s : string) : nat :=
  match s with
  | EmptyString => 0
  | String a s' => (if Ascii.eqb a c then 1 else 0) + count c s'
  end.

Definition contains (c : ascii) (s : string) : bool :=
  negb (count c s =? 0)%nat.

(** White space and line terminators of ECMAScript within 0..255:
    TAB, LF, VT, FF, CR, SP and NBSP. *)
Definition is_space (c : ascii) : bool :=
  let n := N_of_ascii c in
  (N.leb 9 n && N.leb n 13) || N.eqb n 32 || N.eqb n 160.

Fixpoint trimStart (s : string) : string :=
  match s with
  | EmptyString => ""
  | String c s' => if is_space c then trimStart s' else s
  end.

Fixpoint trimEnd (s : string) : string :=
  match s with
  | EmptyString => ""
  | String c s' =>
      match trimEnd s' with
      | EmptyString => if is_space c then "" else String c ""
      | r => String c r
      end
  end.

(** [String.prototype.trim()]. *)
Definition trim (s : string) : string := trimEnd (trimStart s).

(** Lower-casing of one code unit: A..Z, and in the upper half
    U+00C0..U+00DE except the multiplication sign U+00D7. *)
Definition lower_char (c : ascii) : ascii :=
  let n := N_of_ascii c in
  if (N.leb 65 n && N.leb n 90)
     || (N.leb 192 n && N.leb n 222 && negb (N.eqb n 215))
  then ascii_of_N (n + 32) else c.

(** [String.prototype.toLowerCase()]. *)
Fixpoint toLowerCase (s : string) : string :=
  match s with
  | EmptyString => ""
  | String c s' => String (lower_char c) (toLowerCase s')
  end.

(** [String.prototype.endsWith(t)]: the last [length t] code units of [s]
    are [t]. *)
Definition endsWith (s t : string) : bool :=
  let n := String.length s in
  let m := String.length t in
  (m <=? n)%nat && String.eqb (substring (n - m) m s) t.

(** The values a string-typed parameter can hold at run time. *)
Inductive value : Type :=
| VUndefined
| VNull
| VString (s : string).

(** [v || d] for a string default [d]: undefined, null and the empty
    string are falsy. *)
Definition or_string (v : value) (d : string) : string :=
  match v with
  | VString (String c s) => String c s
  | _ => d
  end.

End JS.

(** ** Identity resolver *)

(** [getConversationId(idA, idB)]: [[idA, idB].sort().join('-')]. *)
Definition getConversationId (idA idB : string) : string :=
  JS.join "-" (JS.sort [idA; idB]).

(** The parsing done by [openConversation]: [cId.split('-')]. *)
Definition participants (cId : string) : list string :=
  JS.split "-" cId.

(** ** Sign-up email check *)

(** [validStudentEmail(email)].  [None] is the [TypeError] of calling
    [toLowerCase] on a missing [parts[1]]. *)
Definition validStudentEmail (email : JS.value) : option bool :=
  let parts := JS.split "@" (JS.or_string email "") in
  if negb (List.length parts =? 2)%nat then Some false
  else match nth_error parts 1 with
       | Some domain => Some (JS.endsWith (JS.toLowerCase domain) ".ca")
       | None => None
       end.

(** ** Data model: the rows of the external store *)

(** A row of [public.messages].  [receiver_id] is nullable: the insert of
    the chat form sends whatever [openConversation] parsed, possibly
    [undefined]. *)
Record Message : Type := mkMessage {
  msg_id : nat;
  conversation_id : string;
  sender_id : string;
  receiver_id : option string;
  content : string;
  created_at : Z
}.

(** A row of [public.users], with the columns the messages page reads. *)
Record User : Type := mkUser {
  user_id : string;
  user_email : string;
  full_name : option string;
  blocked : bool
}.

(** The two failures a store call reports in the [error] field of its
    result. *)
Inductive StoreError : Type := AccessDenied | StoreFailure.

(** ** The query interface of the store, as the program uses it

    A query on [messages] is built by chaining [.eq], [.or] and [.order]
    on [supabase.from('messages').select('*')].  The store itself is a
    service outside the repository; [run_query] states what the program
    relies on: a row is returned when it passes every filter, and
    [.order('created_at', { ascending })] sorts the rows by creation
    time. *)

Inductive Column : Type := col_conversation_id | col_sender_id | col_receiver_id.

Inductive Filter : Type :=
| FEq (c : Column) (v : string)
| FOr (f g : Filter).

Record Query : Type := mkQuery {
  q_filters : list Filter;
  q_order : option bool        (* [Some asc]: order by [created_at] *)
}.

Definition from_messages : Query := mkQuery [] None.

Definition eq_ (c : Column) (v : string) (q : Query) : Query :=
  mkQuery (q_filters q ++ [FEq c v]) (q_order q).

Definition or_ (f g : Filter) (q : Query) : Query :=
  mkQuery (q_filters q ++ [FOr f g]) (q_order q).

Definition order_created_at (ascending : bool) (q : Query) : Query :=
  mkQuery (q_filters q) (Some ascending).

Definition column (c : Column) (m : Message) : option string :=
  match c with
  | col_conversation_id => Some (conversation_id m)
  | col_sender_id => Some (sender_id m)
  | col_receiver_id => receiver_id m
  end.

Fixpoint matches (f : Filter) (m : Message) : bool :=
  match f with
  | FEq c v => match column c m with
               | Some x => String.eqb x v
               | None => false
               end
  | FOr f g => matches f m || matches g m
  end.

Definition matches_all (fs : list Filter) (m : Message) : bool :=
  forallb (fun f => matches f m) fs.

(** Ordering by [created_at]; rows with equal time stamps keep the order
    of the table. *)
Definition before (ascending : bool) (x y : Message) : bool :=
  if ascending then (created_at x <=? created_at y)%Z
  else (created_at y <=? created_at x)%Z.

Fixpoint insert_row (ascending : bool) (x : Message) (l : list Message)
  : list Message :=
  match l with
  | [] => [x]
  | y :: l' => if before ascending x y then x :: l
               else y :: insert_row ascending x l'
  end.

Definition order_rows (ascending : bool) (l : list Message) : list Message :=
  fold_right (insert_row ascending) [] l.

(** The rows a query returns on a table. *)
Definition run_query (q : Query) (table : list Message) : list Message :=
  let rows := filter (matches_all (q_filters q)) table in
  match q_order q with
  | Some ascending => order_rows ascending rows
  | None => rows
  end.

(** The history query of [openConversation]. *)
Definition listByConversation (cId : string) : Query :=
  order_created_at true (eq_ col_conversation_id cId from_messages).

(** The query of [loadConversations]: sender or receiver is the user,
    newest first. *)
Definition listByParticipant (userId : string) : Query :=
  order_created_at false
    (or_ (FEq col_sender_id userId) (FEq col_receiver_id userId) from_messages).

(** [(msgs || [])]: the rows of a result whose [data] may be null. *)
Definition rows_or_empty (data : option (list Message)) : list Message :=
  match data with Some l => l | None => [] end.

(** ** Conversation list aggregator *)

(** A JavaScript [Map] from conversation id to an array of messages: the
    entries in insertion order. *)
Definition ConvoMap : Type := list (string * list Message).

Definition map_has (k : string) (m : ConvoMap) : bool :=
  existsb (fun e => String.eqb (fst e) k) m.

(** [m.set(k, v)]: replaces the value of a present key in place, appends
    an absent key. *)
Fixpoint map_set (k : string) (v : list Message) (m : ConvoMap) : ConvoMap :=
  match m with
  | [] => [(k, v)]
  | (k', v') :: m' => if String.eqb k' k then (k', v) :: m'
                      else (k', v') :: map_set k v m'
  end.

(** [m.get(k).push(msg)]: the array stored under [k] grows in place. *)
Fixpoint map_push (k : string) (msg : Message) (m : ConvoMap) : ConvoMap :=
  match m with
  | [] => []
  | (k', v') :: m' => if String.eqb k' k then (k', v' ++ [msg]) :: m'
                      else (k', v') :: map_push k msg m'
  end.

(** The body of the [forEach] that groups the rows. *)
Definition group_step (convoMap : ConvoMap) (msg : Message) : ConvoMap :=
  let cId := conversation_id msg in
  let convoMap := if map_has cId convoMap then convoMap
                  else map_set cId [] convoMap in
  map_push cId msg convoMap.

Definition groupMessages (data : list Message) : ConvoMap :=
  fold_left group_step data [].

(** What one iteration of the list-building loop computes before it looks
    the other user up: the conversation, [lastMsg = msgs[0]] and
    [otherId].  [None] is the [TypeError] of reading a property of
    [undefined], for an empty group. *)
Record Entry : Type := mkEntry {
  entry_conv : string;
  entry_last : Message;
  entry_other : option string
}.

Definition entry_of (me : string) (group : string * list Message)
  : option Entry :=
  match snd group with
  | [] => None
  | lastMsg :: _ =>
      let otherId := if String.eqb (sender_id lastMsg) me
                     then receiver_id lastMsg
                     else Some (sender_id lastMsg) in
      Some (mkEntry (fst group) lastMsg otherId)
  end.

Fixpoint entries_of (me : string) (groups : ConvoMap) : option (list Entry) :=
  match groups with
  | [] => Some []
  | g :: groups' =>
      match entry_of me g with
      | None => None
      | Some e => match entries_of me groups' with
                  | None => None
                  | Some es => Some (e :: es)
                  end
      end
  end.

(** The conversations [loadConversations] lists for the rows the store
    returned, in the order of the list. *)
Definition conversations (me : string) (data : option (list Message))
  : option (list Entry) :=
  entries_of me (groupMessages (rows_or_empty data)).

(** [loadConversations] on a store that answers the query. *)
Definition loadConversations_on (table : list Message) (me : string)
  : option (list Entry) :=
  conversations me (Some (run_query (listByParticipant me) table)).

(** ** The external platform: store and live feeds *)

(** A live feed: the channel ['chat-' + cId] with its filter
    [conversation_id=eq.cId]; [feed_view] is the instance of the messages
    page whose chat area the callback of the feed appends to. *)
Record Feed : Type := mkFeed {
  feed_id : nat;
  feed_conv : string;
  feed_view : nat
}.

Record Platform : Type := mkPlatform {
  messages : list Message;
  users : list User;
  channels : list Feed;              (* the feeds that are open *)
  next_channel : nat;
  next_message : nat;
  clock : Z;                         (* [now()] of the next insert *)
  pending : list (nat * Message)     (* insert events not yet delivered *)
}.

(** The suspension points of the messages page: the calls it awaits. *)
Inductive Call : Type :=
| CallUnsubscribe (ch : nat)
| CallSelectUser (id : option string)
| CallSelectMessages (q : Query)
| CallInsertMessage (cId sender : string) (receiver : option string)
    (text : string).

(** What an awaited call comes back with: a rejected promise, or the
    result object of the call. *)
Inductive Reply : Type :=
| Rejected
| Unsubscribed
| UserRow (data : option User)
| MessageRows (data : option (list Message)) (error : option StoreError)
| Inserted (error : option StoreError).

(** How the platform treats one call: it serves it, reports an error in
    the result, or the promise rejects. *)
Inductive Outcome : Type :=
| Succeeds
| Fails (e : StoreError)
| Throws.

Definition find_user (id : option string) (us : list User) : option User :=
  match id with
  | Some i => find (fun u => String.eqb (user_id u) i) us
  | None => None
  end.

Definition remove_channel (ch : nat) (fs : list Feed) : list Feed :=
  filter (fun f => negb (feed_id f =? ch)%nat) fs.

Definition events_for (row : Message) (fs : list Feed) : list (nat * Message) :=
  map (fun f => (feed_id f, row))
      (filter (fun f => String.eqb (feed_conv f) (conversation_id row)) fs).

(** The platform's side of a call.  A teardown that is served closes the
    feed; one that is not leaves it open, and the promise rejects.  A
    select that fails comes back with [data: null] and the [error].  An
    insert that is refused or fails adds no row and comes back with the
    [error]; an accepted one adds the row, stamped by the clock, and
    queues an insert event for each open feed whose filter matches. *)
Definition perform (c : Call) (o : Outcome) (p : Platform) : Platform * Reply :=
  match c, o with
  | _, Throws => (p, Rejected)
  | CallUnsubscribe ch, Succeeds =>
      (mkPlatform (messages p) (users p) (remove_channel ch (channels p))
         (next_channel p) (next_message p) (clock p) (pending p),
       Unsubscribed)
  | CallUnsubscribe _, Fails _ => (p, Rejected)
  | CallSelectUser id, Succeeds => (p, UserRow (find_user id (users p)))
  | CallSelectUser _, Fails _ => (p, UserRow None)
  | CallSelectMessages q, Succeeds =>
      (p, MessageRows (Some (run_query q (messages p))) None)
  | CallSelectMessages _, Fails e => (p, MessageRows None (Some e))
  | CallInsertMessage cId sender receiver text, Succeeds =>
      let row := mkMessage (next_message p) cId sender receiver text (clock p) in
      (mkPlatform (messages p ++ [row]) (users p) (channels p)
         (next_channel p) (S (next_message p)) (clock p + 1)
         (pending p ++ events_for row (channels p)),
       Inserted None)
  | CallInsertMessage _ _ _ _, Fails e => (p, Inserted (Some e))
  end.

(** ** The state of the client *)

Inductive ChatNode : Type :=
| Loading
| Bubble (mine : bool) (text : string).

Record ConvItem : Type := mkItem {
  item_conv : string;
  item_title : string;
  item_snippet : string
}.

(** What [parseHash()] makes of the hash: the messages page, with the
    conversation to open if the hash names one, or another page. *)
Inductive Route : Type :=
| RouteMessages (id : option string)
| RouteOther (name : string).

(** The module-level variables [currentUser] and [currentChatSubscription],
    [window.location.hash] as [parseHash()] reads it, and the elements of
    the messages page.  [view] counts the renderings
    of the page: a closure created by an earlier rendering holds elements
    that are no longer in the document. *)
Record App : Type := mkApp {
  currentUser : option string;
  currentChatSubscription : option nat;
  location_hash : Route;
  page : string;
  view : nat;
  convList : list ConvItem;
  chatTitle : string;
  chatMessages : list ChatNode;
  messageInput : string;
  onsubmit : option (string * option string);
  notifications : list (string * string)
}.

Definition set_subscription (s : option nat) (a : App) : App :=
  mkApp (currentUser a) s (location_hash a) (page a) (view a) (convList a)
    (chatTitle a) (chatMessages a) (messageInput a) (onsubmit a)
    (notifications a).

Definition set_hash (h : Route) (a : App) : App :=
  mkApp (currentUser a) (currentChatSubscription a) h (page a) (view a)
    (convList a) (chatTitle a) (chatMessages a) (messageInput a) (onsubmit a)
    (notifications a).

Definition set_page (p : string) (a : App) : App :=
  mkApp (currentUser a) (currentChatSubscription a) (location_hash a) p
    (view a) (convList a) (chatTitle a) (chatMessages a) (messageInput a)
    (onsubmit a) (notifications a).

Definition set_convList (l : list ConvItem) (a : App) : App :=
  mkApp (currentUser a) (currentChatSubscription a) (location_hash a) (page a)
    (view a) l (chatTitle a) (chatMessages a) (messageInput a) (onsubmit a)
    (notifications a).

Definition set_chatTitle (t : string) (a : App) : App :=
  mkApp (currentUser a) (currentChatSubscription a) (location_hash a) (page a)
    (view a) (convList a) t (chatMessages a) (messageInput a) (onsubmit a)
    (notifications a).

Definition set_chatMessages (l : list ChatNode) (a : App) : App :=
  mkApp (currentUser a) (currentChatSubscription a) (location_hash a) (page a)
    (view a) (convList a) (chatTitle a) l (messageInput a) (onsubmit a)
    (notifications a).

Definition set_messageInput (s : string) (a : App) : App :=
  mkApp (currentUser a) (currentChatSubscription a) (location_hash a) (page a)
    (view a) (convList a) (chatTitle a) (chatMessages a) s (onsubmit a)
    (notifications a).

Definition set_onsubmit (h : option (string * option string)) (a : App) : App :=
  mkApp (currentUser a) (currentChatSubscription a) (location_hash a) (page a)
    (view a) (convList a) (chatTitle a) (chatMessages a) (messageInput a) h
    (notifications a).

(** [showNotification(message, type)]. *)
Definition showNotification (message type : string) (a : App) : App :=
  mkApp (currentUser a) (currentChatSubscription a) (location_hash a) (page a)
    (view a) (convList a) (chatTitle a) (chatMessages a) (messageInput a)
    (onsubmit a) (notifications a ++ [(message, type)]).

(** A fresh copy of the messages template replaces the content. *)
Definition fresh_messages_page (a : App) : App :=
  mkApp (currentUser a) (currentChatSubscription a) (location_hash a)
    "messages" (S (view a)) [] "" [] "" None (notifications a).

(** A write to an element held by the rendering [v]: visible only while
    that rendering is the one in the document. *)
Definition on_view (v : nat) (f : App -> App) (a : App) : App :=
  if (view a =? v)%nat then f a else a.

(** ** Asynchronous functions

    The client runs on one event loop.  An [async] function runs until
    its next [await]; there it is suspended on a call, and resumes with
    the reply.  Between two suspension points nothing else runs. *)

Definition World : Type := App * Platform.

#[warnings="-register-all"] Inductive Task : Type :=
| Finished
| Crashed                                   (* the promise rejects *)
| Await (c : Call) (k : Reply -> World -> World * Task).

Definition Step : Type := World -> World * Task.

Definition finish : Step := fun w => (w, Finished).

Definition upd (f : App -> App) (w : World) : World := (f (fst w), snd w).

(** Reading [currentUser.id]: a [TypeError] when nobody is signed in. *)
Definition with_user (k : string -> Step) : Step :=
  fun w => match currentUser (fst w) with
           | Some me => k me w
           | None => (w, Crashed)
           end.

(** [other?.full_name || other?.email || fallback]. *)
Definition display_name (other : option User) (fallback : string) : string :=
  match other with
  | None => fallback
  | Some u =>
      match full_name u with
      | Some (String c s) => String c s
      | _ => match user_email u with
             | String c s => String c s
             | EmptyString => fallback
             end
      end
  end.

(** *** The chat view *)

(** [addMessageToChat(msg, otherId)], called by the rendering [v].
    [None]: the [TypeError] of [currentUser.id] without a user. *)
Definition addMessageToChat (v : nat) (msg : Message) (w : World)
  : option World :=
  match currentUser (fst w) with
  | None => None
  | Some me =>
      let isMine := String.eqb (sender_id msg) me in
      Some (upd (on_view v (fun a =>
              set_chatMessages (chatMessages a ++ [Bubble isMine (content msg)]) a))
              w)
  end.

(** [msgs.forEach((msg) => addMessageToChat(msg, otherId))], then [k]. *)
Fixpoint add_all (v : nat) (msgs : list Message) (k : Step) : Step :=
  fun w =>
    match msgs with
    | [] => k w
    | msg :: msgs' =>
        match addMessageToChat v msg w with
        | Some w' => add_all v msgs' k w'
        | None => (w, Crashed)
        end
    end.

(** [supabase.channel('chat-' + cId).on(...).subscribe()], stored in
    [currentChatSubscription]. *)
Definition subscribe (v : nat) (cId : string) (w : World) : World :=
  let p := snd w in
  let ch := next_channel p in
  (set_subscription (Some ch) (fst w),
   mkPlatform (messages p) (users p) (channels p ++ [mkFeed ch cId v])
     (S ch) (next_message p) (clock p) (pending p)).

(** The handler [messageForm.onsubmit] that [openConversation] installs,
    with the [cId] and [otherId] it closes over. *)
Definition onsubmit_handler (v : nat) (cId : string) (otherId : option string)
  : Step :=
  fun w =>
    let contentVal := JS.trim (messageInput (fst w)) in
    match contentVal with
    | EmptyString => (w, Finished)
    | _ =>
        with_user (fun me w =>
          (w, Await (CallInsertMessage cId me otherId contentVal)
                (fun r w =>
                   match r with
                   | Rejected => (w, Crashed)
                   | _ => (upd (on_view v (set_messageInput "")) w, Finished)
                   end))) w
    end.

(** [ids[0] === currentUser.id ? ids[1] : ids[0]] for [ids = cId.split('-')]. *)
Definition other_participant (me : string) (cId : string) : option string :=
  match JS.split "-" cId with
  | [] => None
  | id0 :: rest => if String.eqb id0 me then hd_error rest else Some id0
  end.

(** [openConversation(cId)], called by the rendering [v]. *)
Definition openConversation_body (v : nat) (cId : string) : Step :=
  with_user (fun me w =>
    let otherId := other_participant me cId in
    (w, Await (CallSelectUser otherId) (fun r w =>
      match r with
      | UserRow other =>
          let title := display_name other "Conversation" in
          let title := match other with
                       | Some u => if blocked u then (title ++ " (Blocked)")%string
                                   else title
                       | None => title
                       end in
          let w := upd (on_view v (fun a =>
                     set_chatMessages [Loading] (set_chatTitle title a))) w in
          (w, Await (CallSelectMessages (listByConversation cId)) (fun r w =>
            match r with
            | MessageRows msgs _ =>
                let w := upd (on_view v (set_chatMessages [])) w in
                add_all v (rows_or_empty msgs)
                  (fun w =>
                     let w := subscribe v cId w in
                     (upd (on_view v (set_onsubmit (Some (cId, otherId)))) w,
                      Finished))
                  w
            | _ => (w, Crashed)
            end))
      | _ => (w, Crashed)
      end))).

Definition openConversation (v : nat) (cId : string) : Step :=
  fun w =>
    match currentChatSubscription (fst w) with
    | Some ch =>
        (w, Await (CallUnsubscribe ch) (fun r w =>
           match r with
           | Rejected => (w, Crashed)
           | _ => openConversation_body v cId (upd (set_subscription None) w)
           end))
    | None => openConversation_body v cId w
    end.

(** *** The conversation list *)

(** The loop of [loadConversations] over the groups, then [k]. *)
Fixpoint list_items (v : nat) (groups : ConvoMap) (k : Step) : Step :=
  match groups with
  | [] => k
  | g :: groups' =>
      with_user (fun me w =>
        match entry_of me g with
        | None => (w, Crashed)
        | Some e =>
            (w, Await (CallSelectUser (entry_other e)) (fun r w =>
               match r with
               | UserRow other =>
                   let li := mkItem (entry_conv e)
                               (display_name other "Unknown")
                               (content (entry_last e)) in
                   list_items v groups' k
                     (upd (on_view v (fun a =>
                             set_convList (convList a ++ [li]) a)) w)
               | _ => (w, Crashed)
               end))
        end)
  end.

(** [loadConversations()], called by the rendering [v], then [k]. *)
Definition loadConversations (v : nat) (k : Step) : Step :=
  fun w =>
    let w := upd (on_view v (set_convList [])) w in
    with_user (fun me w =>
      (w, Await (CallSelectMessages (listByParticipant me)) (fun r w =>
         match r with
         | MessageRows data (Some _) =>
             k (upd (showNotification "Unable to load messages." "error") w)
         | MessageRows data None =>
             list_items v (groupMessages (rows_or_empty data)) k w
         | _ => (w, Crashed)
         end))) w.

(** [renderMessagesPage(conversationId)]. *)
Definition renderMessagesPage (conversationId : option string) : Step :=
  fun w =>
    let w := upd fresh_messages_page w in
    let v := view (fst w) in
    loadConversations v
      (match conversationId with
       | Some (String c s) => openConversation v (String c s)
       | _ => finish
       end) w.

(** *** The router *)

(** [const [route, id] = parseHash()] and the [switch] of [handleRoute];
    the pages other than the messages page only leave their name. *)
Definition dispatch : Step :=
  fun w =>
    match location_hash (fst w) with
    | RouteMessages id =>
        match currentUser (fst w) with
        | None =>
            (upd (fun a => set_hash (RouteOther "login")
                    (showNotification "Please log in to view messages." "error" a))
               w, Finished)
        | Some _ => renderMessagesPage id w
        end
    | RouteOther name => (upd (set_page name) w, Finished)
    end.

(** The first statement of [handleRoute]: the subscription is torn down,
    a failure of the teardown is ignored, the variable is cleared; then
    [k] runs. *)
Definition handleRoute_cleanup (k : Step) : Step :=
  fun w =>
    match currentChatSubscription (fst w) with
    | Some ch =>
        (w, Await (CallUnsubscribe ch) (fun _ w =>
           k (upd (set_subscription None) w)))
    | None => k w
    end.

(** [handleRoute()]. *)
Definition handleRoute : Step := handleRoute_cleanup dispatch.

(** ** The event loop *)

(** The world together with the suspended functions; a function keeps
    its position in [tasks] for the whole of its life. *)
Record System : Type := mkSystem {
  world : World;
  tasks : list Task
}.

(** What can happen next: the hash changes to [r] and [hashchange] calls
    [handleRoute]; [handleRoute] is called on the hash as it is (a change
    of the authentication state, or the [hashchange] of a redirection);
    the user clicks the [i]-th conversation of the list, edits the input
    field, submits the form; the call that task [t] waits for comes back;
    the platform delivers the oldest undelivered insert event. *)
Inductive Event : Type :=
| Navigate (r : Route)
| Reroute
| ClickConversation (i : nat)
| TypeMessage (s : string)
| Submit
| Resume (t : nat) (o : Outcome)
| Deliver.

(** Calling an [async] function: it runs up to its first [await]. *)
Definition spawn (s : Step) (sys : System) : System :=
  let (w, t) := s (world sys) in mkSystem w (tasks sys ++ [t]).

Fixpoint replace_nth {A : Type} (n : nat) (x : A) (l : list A) : list A :=
  match l, n with
  | [], _ => []
  | _ :: l', O => x :: l'
  | y :: l', S n' => y :: replace_nth n' x l'
  end.

Definition drop_pending (p : Platform) : Platform :=
  mkPlatform (messages p) (users p) (channels p) (next_channel p)
    (next_message p) (clock p) (tl (pending p)).

(** The callback of a feed: [(payload) => addMessageToChat(payload.new,
    otherId)]; an exception in it stays in the callback. *)
Definition feed_callback (f : Feed) (row : Message) (w : World) : World :=
  match addMessageToChat (feed_view f) row w with
  | Some w' => w'
  | None => w
  end.

Definition on_messages_page (sys : System) : bool :=
  String.eqb (page (fst (world sys))) "messages".

Definition step (e : Event) (sys : System) : option System :=
  let a := fst (world sys) in
  let p := snd (world sys) in
  match e with
  | Navigate r =>
      Some (spawn handleRoute
              (mkSystem (upd (set_hash r) (world sys)) (tasks sys)))
  | Reroute => Some (spawn handleRoute sys)
  | ClickConversation i =>
      if on_messages_page sys then
        match nth_error (convList a) i with
        | Some li => Some (spawn (openConversation (view a) (item_conv li)) sys)
        | None => None
        end
      else None
  | TypeMessage s =>
      if on_messages_page sys
      then Some (mkSystem (upd (set_messageInput s) (world sys)) (tasks sys))
      else None
  | Submit =>
      if on_messages_page sys then
        match onsubmit a with
        | Some (cId, otherId) =>
            Some (spawn (onsubmit_handler (view a) cId otherId) sys)
        | None => None
        end
      else None
  | Resume t o =>
      match nth_error (tasks sys) t with
      | Some (Await c k) =>
          let (p', r) := perform c o p in
          let (w', t') := k r (a, p') in
          Some (mkSystem w' (replace_nth t t' (tasks sys)))
      | _ => None
      end
  | Deliver =>
      match pending p with
      | [] => None
      | (ch, row) :: _ =>
          let w := (a, drop_pending p) in
          match find (fun f => (feed_id f =? ch)%nat) (channels p) with
          | Some f => Some (mkSystem (feed_callback f row w) (tasks sys))
          | None => Some (mkSystem w (tasks sys))
          end
      end
  end.

Fixpoint run (es : list Event) (sys : System) : option System :=
  match es with
  | [] => Some sys
  | e :: es' => match step e sys with
                | Some sys' => run es' sys'
                | None => None
                end
  end.

(** The feeds open at an instant. *)
Definition live_subscriptions (sys : System) : list Feed :=
  channels (snd (world sys)).

(** One function run without anything in between: each call it awaits
    comes back, with the next outcome of [os], before any other event. *)
Fixpoint complete (os : list Outcome) (wt : World * Task) : World * Task :=
  match snd wt, os with
  | Await c k, o :: os' =>
      let (p', r) := perform c o (snd (fst wt)) in
      complete os' (k r (fst (fst wt), p'))
  | _, _ => wt
  end.

(** The calls a function run in this way issues. *)
Fixpoint calls (os : list Outcome) (wt : World * Task) : list Call :=
  match snd wt, os with
  | Await c k, o :: os' =>
      let (p', r) := perform c o (snd (fst wt)) in
      c :: calls os' (k r (fst (fst wt), p'))
  | Await c _, [] => [c]
  | _, _ => []
  end.

(** A client that has rendered nothing yet. *)
Definition start (me : option string) (p : Platform) : System :=
  mkSystem (mkApp me None (RouteOther "home") "" 0 [] "" [] "" None [], p) [].

(** ** Vocabulary of the statements *)

(** The order a query asks for, as a relation on rows. *)
Definition ordered (ascending : bool) (x y : Message) : Prop :=
  if ascending then (created_at x <= created_at y)%Z
  else (created_at y <= created_at x)%Z.

(** The rows of one conversation. *)
Definition in_conversation (cId : string) (m : Message) : bool :=
  String.eqb (conversation_id m) cId.

(** The user takes part in a message. *)
Definition involves (me : string) (m : Message) : Prop :=
  sender_id m = me \/ receiver_id m = Some me.

(** The first message of every group of a map, in the order of the map. *)
Definition heads (g : ConvoMap) : list Message :=
  flat_map (fun e => match snd e with [] => [] | x :: _ => [x] end) g.

(** What the grouping loop has built after it has gone through the rows
    [l]: one group for each conversation of [l], holding the rows of that
    conversation in the order of [l]; the first rows of the groups are
    rows of [l] and stand in the order of [l]. *)
Definition grouped (l : list Message) (g : ConvoMap) : Prop :=
  NoDup (map fst g) /\
  (forall k ms, In (k, ms) g -> ms <> [] /\ ms = filter (in_conversation k) l) /\
  (forall m, In m l -> In (conversation_id m) (map fst g)) /\
  (forall x, In x (heads g) -> In x l) /\
  (forall asc, StronglySorted (ordered asc) l ->
               StronglySorted (ordered asc) (heads g)).

(** The filter of [listByParticipant] on one row. *)
Definition takes_part (me : string) (m : Message) : bool :=
  String.eqb (sender_id m) me
  || match receiver_id m with
     | Some r => String.eqb r me
     | None => false
     end.

(** The conversation list is ordered by the creation time of the
    representative messages, most recent first. *)
Definition most_recent_first (es : list Entry) : Prop :=
  StronglySorted
    (fun x y => (created_at (entry_last y) <= created_at (entry_last x))%Z) es.

(** A string made of white space only (the empty string included). *)
Fixpoint all_space (s : string) : bool :=
  match s with
  | EmptyString => true
  | String c s' => JS.is_space c && all_space s'
  end.

(** The row an accepted insert of the chat form adds to the store. *)
Definition sent_row (p : Platform) (cId me : string) (otherId : option string)
  (text : string) : Message :=
  mkMessage (next_message p) cId me otherId text (clock p).

(** A store with two conversations of user "a1". *)
Definition two_conversations : Platform :=
  mkPlatform
    [mkMessage 0 "a1-b2" "a1" (Some "b2") "is it still for sale?" 5;
     mkMessage 1 "a1-c3" "c3" (Some "a1") "see you at noon" 9]
    [mkUser "a1" "ann@uni.ca" (Some "Ann") false;
     mkUser "b2" "bo@uni.ca" (Some "Bo") false;
     mkUser "c3" "cy@uni.ca" (Some "Cy") false]
    [] 0 2 10 [].

(** The user opens the messages page, waits for the list, and clicks two
    conversations one after the other, the second before the first has
    finished loading. *)
Definition two_quick_clicks : list Event :=
  [Navigate (RouteMessages None);
   Resume 0 Succeeds; Resume 0 Succeeds; Resume 0 Succeeds;
   ClickConversation 0;
   ClickConversation 1;
   Resume 1 Succeeds; Resume 1 Succeeds;
   Resume 2 Succeeds; Resume 2 Succeeds].

Definition all_finished (sys : System) : bool :=
  forallb (fun t => match t with Finished => true | _ => false end) (tasks sys).

(** The list item [loadConversations] builds for an entry. *)
Definition item_of (us : list User) (e : Entry) : ConvItem :=
  mkItem (entry_conv e)
    (display_name (find_user (entry_other e) us) "Unknown")
    (content (entry_last e)).

(** The bubble [addMessageToChat] builds for a row. *)
Definition bubble_of (me : string) (m : Message) : ChatNode :=
  Bubble (String.eqb (sender_id m) me) (content m).

(** The variable [currentChatSubscription] accounts for the open feeds:
    the feed it holds is the only one open, and none is open when it
    holds none. *)
Definition tracked (w : World) : Prop :=
  map feed_id (channels (snd w))
  = match currentChatSubscription (fst w) with
    | Some ch => [ch]
    | None => []
    end.

(** A function that, run on its own from a world where the variable
    accounts for the feeds, leaves such a world at each of its
    suspension points and at its end, whatever the calls come back with. *)
Definition keeps_track (s : Step) : Prop :=
  forall os w, tracked w -> tracked (fst (complete os (s w))).

(** The operations on the messages page, each run to its end (or as far
    as the outcomes given reach) before the next one starts. *)
Inductive Operation : Type :=
| Navigation (r : Route)
| OpenConversation (v : nat) (cId : string)
| SendMessage (v : nat) (cId : string) (otherId : option string).

Definition operation (op : Operation) : Step :=
  match op with
  | Navigation r => fun w => handleRoute (upd (set_hash r) w)
  | OpenConversation v cId => openConversation v cId
  | SendMessage v cId otherId => onsubmit_handler v cId otherId
  end.

Fixpoint run_in_turn (l : list (Operation * list Outcome)) (w : World) : World :=
  match l with
  | [] => w
  | (op, os) :: l' => run_in_turn l' (fst (complete os (operation op w)))
  end.

(** The teardown a navigation asks for is served. *)
Definition teardown_served (w : World) (op : Operation) (os : list Outcome)
  : Prop :=
  match op, currentChatSubscription (fst w), os with
  | Navigation _, Some _, o :: _ => o = Succeeds
  | _, _, _ => True
  end.

Fixpoint teardowns_served (l : list (Operation * list Outcome)) (w : World)
  : Prop :=
  match l with
  | [] => True
  | (op, os) :: l' =>
      teardown_served w op os /\
      teardowns_served l' (fst (complete os (operation op w)))
  end.

(** ** The hash and the router *)

(** [hash.replace(/^#\/?/, '')]: a leading ['#'], and one ['/'] after it,
    are dropped. *)
Definition strip_hash_prefix (hash : string) : string :=
  match hash with
  | String "#" (String "/" s) => s
  | String "#" s => s
  | _ => hash
  end.

(** [Boolean(s)] for a string. *)
Definition truthy (s : string) : bool :=
  match s with
  | EmptyString => false
  | String _ _ => true
  end.

(** [parseHash()], as a function of [window.location.hash]. *)
Definition parseHash (location_hash : string) : string * option string :=
  let hash := if truthy location_hash then location_hash else "#/home" in
  let hash := strip_hash_prefix hash in
  let parts := filter truthy (JS.split "/" hash) in
  let route := match nth_error parts 0 with
               | Some (String c s) => String c s
               | _ => "home"
               end in
  let id := if (1 <? List.length parts)%nat then nth_error parts 1 else None in
  (route, id).

(** The links the client builds: [`#/${route}/${id}`]. *)
Definition link_to (route id : string) : string :=
  "#/" ++ route ++ "/" ++ id.


(** What the [switch] of [handleRoute] does for a route: it renders a
    page, or it shows an error notification and assigns another hash. *)
Inductive PageAction : Type :=
| RenderLoginPage (openSignupTab : bool)
| RenderMarketplacePage
| RenderNewListingPage (id : option string)
| RenderListingDetailsPage (id : option string)
| RenderProfilePage (id : option string)
| RenderMessagesPage (id : option string)
| RenderSavedPage
| RenderAdminPage
| RenderHomePage (scrollTo : option string)
| RedirectTo (message hash : string).

(** The [switch (route)] of [handleRoute].  [user] is [currentUser];
    [admin] is [None] when [userProfile] is [null], and otherwise the
    truth of [userProfile.is_admin]. *)
Definition handleRoute_switch (user : option string) (admin : option bool)
  (route : string) (id : option string) : PageAction :=
  if String.eqb route "login" then RenderLoginPage false
  else if String.eqb route "signup" then RenderLoginPage true
  else if String.eqb route "marketplace" then RenderMarketplacePage
  else if String.eqb route "new-listing" then
    match user with
    | None => RedirectTo "Please log in to create listings." "#/login"
    | Some _ => RenderNewListingPage id
    end
  else if String.eqb route "listing" then RenderListingDetailsPage id
  else if String.eqb route "profile" then RenderProfilePage id
  else if String.eqb route "messages" then
    match user with
    | None => RedirectTo "Please log in to view messages." "#/login"
    | Some _ => RenderMessagesPage id
    end
  else if String.eqb route "saved" then
    match user with
    | None => RedirectTo "Please log in to view saved listings." "#/login"
    | Some _ => RenderSavedPage
    end
  else if String.eqb route "admin" then
    match user, admin with
    | Some _, Some true => RenderAdminPage
    | _, _ => RedirectTo "You do not have access to that page." "#/home"
    end
  else if String.eqb route "categories" || String.eqb route "how-it-works"
          || String.eqb route "testimonials"
  then RenderHomePage (Some route)
  else RenderHomePage None.

(** The page [handleRoute] ends with for a hash. *)
Definition page_for (user : option string) (admin : option bool)
  (location_hash : string) : PageAction :=
  let (route, id) := parseHash location_hash in
  handleRoute_switch user admin route id.

(** The pages that are for signed-in users. *)
Definition members_only (a : PageAction) : bool :=
  match a with
  | RenderNewListingPage _ | RenderMessagesPage _ | RenderSavedPage
  | RenderAdminPage => true
  | _ => false
  end.

Definition is_redirect (a : PageAction) : bool :=
  match a with
  | RedirectTo _ _ => true
  | _ => false
  end.

(** [renderNav()]: the links of [#nav-bar] and the anchors of
    [#nav-buttons], each with its text and its [href]; the log-out
    button, which is no link, is left out. *)
Definition renderNav (user : option string) (admin : option bool)
  : list (string * string) :=
  [("Home", "#/home"); ("Marketplace", "#/marketplace");
   ("Categories", "#categories"); ("How It Works", "#how-it-works");
   ("Testimonials", "#testimonials")]
  ++ match user with
     | Some _ =>
         [("New Listing", "#/new-listing"); ("Saved", "#/saved");
          ("Messages", "#/messages"); ("Profile", "#/profile")]
         ++ match admin with
            | Some true => [("Admin", "#/admin")]
            | _ => []
            end
     | None => [("Login", "#/login"); ("Sign Up", "#/signup")]
     end.

(** A string of [n] slashes. *)
Fixpoint slashes (n : nat) : string :=
  match n with
  | O => ""
  | S n' => String "/" (slashes n')
  end.

(** ** Saved listings *)

(** A JavaScript [Set] of strings: its members in insertion order. *)
Definition set_has (x : string) (s : list string) : bool :=
  existsb (String.eqb x) s.

Definition set_add (x : string) (s : list string) : list string :=
  if set_has x s then s else s ++ [x].

Definition set_delete (x : string) (s : list string) : list string :=
  filter (fun y => negb (String.eqb y x)) s.

(** The module-level [savedListingIds] together with the table
    [saved_listings] of the store, a list of rows [(user_id, listing_id)]
    with that pair as primary key. *)
Record Saved : Type := mkSaved {
  savedListingIds : list string;
  saved_listings : list (string * string)
}.

Inductive SavedCall : Type :=
| SelectSaved (user : string)
| InsertSaved (user listing : string)
| DeleteSaved (user listing : string).

Inductive SavedReply : Type :=
| SavedRejected
| SavedRows (data : option (list string)) (error : option StoreError)
| SavedDone (error : option StoreError).

Definition same_row (r r' : string * string) : bool :=
  String.eqb (fst r) (fst r') && String.eqb (snd r) (snd r').

(** The store's side of the three calls on [saved_listings]: the select
    returns the listings of the rows of the user; the insert adds the
    row unless the key is taken, which is an error; the delete removes
    the rows that match. *)
Definition perform_saved (c : SavedCall) (o : Outcome)
  (rows : list (string * string)) : list (string * string) * SavedReply :=
  match o, c with
  | Throws, _ => (rows, SavedRejected)
  | Fails e, SelectSaved _ => (rows, SavedRows None (Some e))
  | Fails e, _ => (rows, SavedDone (Some e))
  | Succeeds, SelectSaved user =>
      (rows,
       SavedRows
         (Some (map snd (filter (fun r => String.eqb (fst r) user) rows)))
         None)
  | Succeeds, InsertSaved user listing =>
      if existsb (same_row (user, listing)) rows
      then (rows, SavedDone (Some StoreFailure))
      else (rows ++ [(user, listing)], SavedDone None)
  | Succeeds, DeleteSaved user listing =>
      (filter (fun r => negb (same_row (user, listing) r)) rows,
       SavedDone None)
  end.

(** [loadSavedListingIds()], for the outcome [o] of its one query.  The
    boolean is false when the promise of the function rejects. *)
Definition loadSavedListingIds (user : option string) (o : Outcome) (s : Saved)
  : Saved * bool :=
  let cleared := mkSaved [] (saved_listings s) in
  match user with
  | None => (cleared, true)
  | Some me =>
      let (rows, reply) := perform_saved (SelectSaved me) o (saved_listings s) in
      match reply with
      | SavedRows (Some data) None =>
          (mkSaved (fold_left (fun ids listing => set_add listing ids) data [])
             rows, true)
      | SavedRows _ _ => (mkSaved [] rows, true)
      | _ => (mkSaved [] rows, false)
      end
  end.

(** The click handler of the heart of a listing, on the marketplace and
    on the details page, for the outcome [o] of its one call. *)
Definition toggleSaved (user : option string) (listing : string) (o : Outcome)
  (s : Saved) : Saved * bool :=
  match user with
  | None => (s, false)
  | Some me =>
      if set_has listing (savedListingIds s) then
        let (rows, reply) :=
          perform_saved (DeleteSaved me listing) o (saved_listings s) in
        match reply with
        | SavedRejected => (mkSaved (savedListingIds s) rows, false)
        | _ => (mkSaved (set_delete listing (savedListingIds s)) rows, true)
        end
      else
        let (rows, reply) :=
          perform_saved (InsertSaved me listing) o (saved_listings s) in
        match reply with
        | SavedRejected => (mkSaved (savedListingIds s) rows, false)
        | _ => (mkSaved (set_add listing (savedListingIds s)) rows, true)
        end
  end.

(** The hearts agree with the store: the set holds the listings the
    store has a row for, for this user. *)
Definition in_sync (me : string) (s : Saved) : Prop :=
  forall listing,
    set_has listing (savedListingIds s) = true
    <-> In (me, listing) (saved_listings s).

(** ** Ratings *)

(** A row of [public.ratings]. *)
Record Rating : Type := mkRating {
  rating_listing : string;
  rating_user : string;
  rating_value : Z;
  rating_comment : option string
}.

(** The part of the store a rating touches: the aggregate columns
    [rating_sum] and [rating_count] of the listing, and the table of
    ratings. *)
Record RatingStore : Type := mkRatingStore {
  rating_sum : Z;
  rating_count : Z;
  ratings : list Rating
}.

(** The [data-star] values of the five spans of the modal. *)
Definition star_values : list Z := [1; 2; 3; 4; 5]%Z.

(** A click on the span at position [idx]:
    [selectedRating = parseInt(star.getAttribute('data-star'))]. *)
Definition click_star (idx : nat) (selectedRating : Z) : Z :=
  match nth_error star_values idx with
  | Some v => v
  | None => selectedRating
  end.

(** [selectedRating] after a series of clicks; it starts at 0. *)
Definition selected_after (clicks : list nat) : Z :=
  fold_left (fun selectedRating idx => click_star idx selectedRating) clicks 0%Z.

Inductive RatingResult : Type :=
| PleaseSelect          (* the alert; nothing is sent *)
| RatingThrew           (* an awaited promise rejected *)
| Thanked.              (* 'Thank you for your rating!' and a new rendering *)

(** The click handler of the submit button of [showRatingModal(listing)],
    where [listing] is the row the details page was rendered from, with
    [snapshot_sum] and [snapshot_count] its aggregate columns; [o1] is
    the outcome of the insert of the rating, [o2] that of the update of
    the listing. *)
Definition submitRating (user : option string) (listing : string)
  (snapshot_sum snapshot_count : Z) (selectedRating : Z) (comment_input : string)
  (o1 o2 : Outcome) (st : RatingStore) : RatingStore * RatingResult :=
  if (selectedRating <? 1)%Z then (st, PleaseSelect)
  else
    let comment := JS.trim comment_input in
    match user with
    | None => (st, RatingThrew)
    | Some me =>
        let row := mkRating listing me selectedRating
                     (if truthy comment then Some comment else None) in
        match o1 with
        | Throws => (st, RatingThrew)
        | _ =>
            let st1 := match o1 with
                       | Succeeds => mkRatingStore (rating_sum st) (rating_count st)
                                       (ratings st ++ [row])
                       | _ => st
                       end in
            let newSum := (snapshot_sum + selectedRating)%Z in
            let newCount := (snapshot_count + 1)%Z in
            match o2 with
            | Throws => (st1, RatingThrew)
            | Succeeds => (mkRatingStore newSum newCount (ratings st1), Thanked)
            | Fails _ => (st1, Thanked)
            end
        end
    end.

(** ** The images of a listing *)





(** ** Sign-up *)

(** What the submit handler of the sign-up form does with the fields
    before anything is awaited: it shows an error notification and
    returns, or it calls [supabase.auth.signUp] with the email, the
    password and the profile details; [SignUpThrew] is the [TypeError]
    of the email check. *)
Inductive SignUpStep : Type :=
| SignUpRefused (message : string)
| SignUpThrew
| SignUpCall (email password full_name school_name program_name : string).

Definition signup_submit (fullname_input email_input password school_input
  program_input : string) : SignUpStep :=
  let fullName := JS.trim fullname_input in
  let email := JS.trim email_input in
  let school := JS.trim school_input in
  let program := JS.trim program_input in
  if negb (truthy fullName) || negb (truthy email) || negb (truthy password)
     || negb (truthy school)
  then SignUpRefused "Please fill out all required fields."
  else match validStudentEmail (JS.VString email) with
       | None => SignUpThrew
       | Some false =>
           SignUpRefused "Please use a valid .ca student email address."
       | Some true => SignUpCall email password fullName school program
       end.

(** * Properties *)

(** ** Strings *)

Section StringFacts.

Lemma sort_pair (a b : string) :
  JS.sort [a; b] = if String.ltb a b || String.eqb a b then [a; b] else [b; a].
Proof. reflexivity. Qed.

Lemma ltb_flip (a b : string) :
  String.ltb a b = true -> String.ltb b a = false /\ String.eqb b a = false.
Proof.
  unfold String.ltb. intros H.
  destruct (String.compare a b) eqn:E; try discriminate.
  split.
  - rewrite String.compare_antisym, E. reflexivity.
  - apply String.eqb_neq. intros ->.
    pose proof (String.compare_antisym a a) as Ha.
    rewrite E in Ha. discriminate.
Qed.

Lemma not_le_flip (a b : string) :
  String.ltb a b || String.eqb a b = false -> String.ltb b a = true.
Proof.
  intros H. apply orb_false_iff in H as [Hlt Heq].
  unfold String.ltb in *.
  rewrite String.compare_antisym.
  destruct (String.compare a b) eqn:E; simpl; try reflexivity; try discriminate.
  apply String.compare_eq_iff in E. subst.
  rewrite String.eqb_refl in Heq. discriminate.
Qed.

(** Sorting two identifiers does not depend on the order they are given in. *)
Lemma sort_pair_comm (a b : string) : JS.sort [a; b] = JS.sort [b; a].
Proof.
  rewrite !sort_pair.
  destruct (String.ltb a b || String.eqb a b) eqn:Hab.
  - apply orb_true_iff in Hab as [Hlt | Heq].
    + destruct (ltb_flip _ _ Hlt) as [-> ->]. reflexivity.
    + apply String.eqb_eq in Heq. subst.
      destruct (String.ltb b b || String.eqb b b); reflexivity.
  - rewrite (not_le_flip _ _ Hab). reflexivity.
Qed.

Lemma sort_pair_cases (a b : string) :
  JS.sort [a; b] = [a; b] \/ JS.sort [a; b] = [b; a].
Proof.
  rewrite sort_pair. destruct (String.ltb a b || String.eqb a b); auto.
Qed.

Lemma contains_false (c : ascii) (s : string) :
  JS.contains c s = false <-> JS.count c s = 0.
Proof.
  unfold JS.contains. rewrite negb_false_iff. apply Nat.eqb_eq.
Qed.

Lemma split_not_nil (sep : ascii) (s : string) : JS.split sep s <> [].
Proof.
  induction s as [|c s IH]; simpl; try discriminate.
  destruct (Ascii.eqb c sep); try discriminate.
  destruct (JS.split sep s); [contradiction | discriminate].
Qed.

(** A string without separator is its own single field. *)
Lemma split_without_sep (sep : ascii) (s : string) :
  JS.count sep s = 0 -> JS.split sep s = [s].
Proof.
  induction s as [|c s IH]; simpl; intros H; [reflexivity|].
  destruct (Ascii.eqb c sep); [discriminate|].
  rewrite IH by exact H. reflexivity.
Qed.

(** The first separator ends the first field. *)
Lemma split_at_sep (sep : ascii) (a b : string) :
  JS.count sep a = 0 ->
  JS.split sep (a ++ String sep b) = a :: JS.split sep b.
Proof.
  induction a as [|c a IH]; simpl; intros H.
  - rewrite Ascii.eqb_refl. reflexivity.
  - destruct (Ascii.eqb c sep); [discriminate|].
    rewrite IH by exact H. reflexivity.
Qed.

(** The number of fields is one more than the number of separators. *)
Lemma split_length (sep : ascii) (s : string) :
  List.length (JS.split sep s) = S (JS.count sep s).
Proof.
  induction s as [|c s IH]; simpl; [reflexivity|].
  destruct (Ascii.eqb c sep); simpl.
  - rewrite IH. reflexivity.
  - destruct (JS.split sep s) eqn:E; simpl in *; [discriminate | exact IH].
Qed.

Lemma count_app (c : ascii) (a b : string) :
  JS.count c (a ++ b) = JS.count c a + JS.count c b.
Proof.
  induction a as [|x a IH]; simpl; [reflexivity|]. rewrite IH. lia.
Qed.

(** A string with a separator in it splits at the first one. *)
Lemma split_first (sep : ascii) (s : string) :
  JS.count sep s <> 0 ->
  exists a b, s = (a ++ String sep b)%string /\ JS.count sep a = 0.
Proof.
  induction s as [|c s IH]; simpl; intros H; [contradiction|].
  destruct (Ascii.eqb c sep) eqn:E.
  - apply Ascii.eqb_eq in E. subst. exists ""%string, s. split; reflexivity.
  - destruct (IH H) as (a & b & -> & Ha).
    exists (String c a), b. simpl. rewrite E. split; [reflexivity | exact Ha].
Qed.

Lemma join_pair (sep a b : string) : JS.join sep [a; b] = (a ++ sep ++ b)%string.
Proof. reflexivity. Qed.

End StringFacts.

(** ** Identity resolver *)

(** C1: the conversation identifier of two users does not depend on the
    order in which the two identifiers are given:
    [getConversationId(A, B) = getConversationId(B, A)]. *)
Theorem C1_getConversationId_symmetric (idA idB : string) :
  getConversationId idA idB = getConversationId idB idA.
Proof.
  unfold getConversationId. rewrite (sort_pair_comm idA idB). reflexivity.
Qed.

Lemma participants_of_pair (a b : string) :
  JS.count "-" a = 0 -> JS.count "-" b = 0 ->
  participants (JS.join "-" [a; b]) = [a; b].
Proof.
  intros Ha Hb. unfold participants. rewrite join_pair. simpl append at 2.
  rewrite split_at_sep by exact Ha.
  rewrite split_without_sep by exact Hb. reflexivity.
Qed.

(** C2: when neither identifier contains ['-'], splitting the conversation
    identifier on ['-'] gives back the two identifiers, in one order or
    the other; and the parsing of [openConversation] then finds, for
    either participant, the other one. *)
Theorem C2_participants_roundtrip (idA idB : string) :
  JS.contains "-" idA = false ->
  JS.contains "-" idB = false ->
  (participants (getConversationId idA idB) = [idA; idB] \/
   participants (getConversationId idA idB) = [idB; idA]) /\
  other_participant idA (getConversationId idA idB) = Some idB /\
  other_participant idB (getConversationId idA idB) = Some idA.
Proof.
  intros HA HB. apply contains_false in HA, HB.
  assert (forall me other,
             participants (getConversationId idA idB) = [me; other] \/
             participants (getConversationId idA idB) = [other; me] ->
             other_participant me (getConversationId idA idB) = Some other)
    as Hother.
  { intros me other H. unfold other_participant. fold (participants (getConversationId idA idB)).
    destruct H as [-> | ->].
    - rewrite String.eqb_refl. reflexivity.
    - destruct (String.eqb other me) eqn:E; [|reflexivity].
      apply String.eqb_eq in E. subst. reflexivity. }
  assert (participants (getConversationId idA idB) = [idA; idB] \/
          participants (getConversationId idA idB) = [idB; idA]) as H.
  { unfold getConversationId.
    destruct (sort_pair_cases idA idB) as [-> | ->];
      [left | right]; apply participants_of_pair; assumption. }
  split; [exact H|]. split; apply Hother; tauto.
Qed.

Lemma C2_participants_roundtrip_witness :
  (participants (getConversationId "b2" "a1") = ["b2"; "a1"] \/
   participants (getConversationId "b2" "a1") = ["a1"; "b2"]) /\
  other_participant "b2" (getConversationId "b2" "a1") = Some "a1" /\
  other_participant "a1" (getConversationId "b2" "a1") = Some "b2".
Proof.
  apply (C2_participants_roundtrip "b2" "a1"); reflexivity.
Defined.

(** ** Sign-up email check *)

Section EndsWith.

Lemma length_append (p t : string) :
  String.length (p ++ t) = String.length p + String.length t.
Proof. induction p as [|c p IH]; simpl; [reflexivity | rewrite IH; reflexivity]. Qed.

Lemma substring_whole (t : string) : substring 0 (String.length t) t = t.
Proof. induction t as [|c t IH]; simpl; [reflexivity | rewrite IH; reflexivity]. Qed.

Lemma substring_after (p t : string) (m : nat) :
  substring (String.length p) m (p ++ t) = substring 0 m t.
Proof. induction p as [|c p IH]; simpl; [reflexivity | exact IH]. Qed.

Lemma substring_cut (s : string) :
  forall k, k <= String.length s ->
  s = (substring 0 k s ++ substring k (String.length s - k) s)%string.
Proof.
  induction s as [|c s IH]; intros k Hk.
  - simpl in Hk. assert (k = 0) by lia. subst. reflexivity.
  - destruct k as [|k].
    + simpl. rewrite substring_whole. reflexivity.
    + simpl in *. rewrite <- IH by lia. reflexivity.
Qed.

(** [endsWith] holds exactly of the strings that have the suffix. *)
Lemma endsWith_spec (s t : string) :
  JS.endsWith s t = true <-> exists p, s = (p ++ t)%string.
Proof.
  unfold JS.endsWith. rewrite andb_true_iff, Nat.leb_le, String.eqb_eq. split.
  - intros [Hle Hsub].
    exists (substring 0 (String.length s - String.length t) s).
    pose proof (substring_cut s (String.length s - String.length t)) as Hcut.
    replace (String.length s - (String.length s - String.length t))
      with (String.length t) in Hcut by lia.
    rewrite Hsub in Hcut. apply Hcut. lia.
  - intros [p ->]. rewrite length_append. split; [lia|].
    replace (String.length p + String.length t - String.length t)
      with (String.length p) by lia.
    rewrite substring_after. apply substring_whole.
Qed.

Lemma or_string_empty_default (s : string) : JS.or_string (JS.VString s) "" = s.
Proof. destruct s; reflexivity. Qed.

End EndsWith.

(** What the check computes on a string with exactly one ['@']. *)
Lemma validStudentEmail_one_at (l d : string) :
  JS.count "@" (l ++ String "@" d) = 1 ->
  validStudentEmail (JS.VString (l ++ String "@" d))
  = Some (JS.endsWith (JS.toLowerCase d) ".ca").
Proof.
  intros H. rewrite count_app in H. simpl in H.
  unfold validStudentEmail. rewrite or_string_empty_default.
  rewrite split_at_sep by lia. rewrite split_without_sep by lia.
  reflexivity.
Qed.

(** C10: the sign-up check never fails, and it accepts exactly the
    strings that contain one ['@'] and whose part after the ['@'], in
    lower case, ends with ['.ca']; it answers false on [null], on
    [undefined], on the empty string and on every string with no ['@'] or
    more than one. *)
Theorem C10_validStudentEmail_spec (email : JS.value) :
  exists b : bool,
    validStudentEmail email = Some b /\
    (b = true <->
     exists l d : string,
       email = JS.VString (l ++ String "@" d) /\
       JS.count "@" (l ++ String "@" d) = 1 /\
       exists p : string, JS.toLowerCase d = (p ++ ".ca")%string) /\
    (email = JS.VNull \/ email = JS.VUndefined \/ email = JS.VString "" ->
     b = false) /\
    (forall s : string, email = JS.VString s -> JS.count "@" s <> 1 ->
     b = false).
Proof.
  set (s0 := JS.or_string email "").
  assert (forall s, email = JS.VString s -> s0 = s) as Hs0.
  { intros s ->. apply or_string_empty_default. }
  assert (email = JS.VNull \/ email = JS.VUndefined \/ email = JS.VString "" ->
          s0 = ""%string) as Hnone.
  { intros [-> | [-> | ->]]; reflexivity. }
  destruct (Nat.eq_dec (JS.count "@" s0) 1) as [Hone | Hnot].
  - (* exactly one separator *)
    destruct (split_first "@" s0) as (l & d & Hs & Hl); [lia|].
    assert (email = JS.VString (l ++ String "@" d)) as Hemail.
    { destruct email as [| |s]; try (unfold s0 in Hone; simpl in Hone; discriminate).
      rewrite <- Hs. f_equal. symmetry. apply Hs0. reflexivity. }
    rewrite Hs in Hone.
    exists (JS.endsWith (JS.toLowerCase d) ".ca").
    split; [rewrite Hemail; apply validStudentEmail_one_at; exact Hone|].
    split; [|split].
    + rewrite endsWith_spec. split.
      * intros Hp. exists l, d. auto.
      * intros (l' & d' & Heq & Hcnt & Hp).
        rewrite Hemail in Heq. injection Heq as Heq.
        assert (l ++ String "@" d = l' ++ String "@" d')%string as Heq' by exact Heq.
        assert ([l; d] = [l'; d']) as Hpair.
        { rewrite count_app in Hone, Hcnt. simpl in Hone, Hcnt.
          rewrite <- (split_without_sep "@" d) by lia.
          rewrite <- (split_without_sep "@" d') by lia.
          rewrite <- (split_at_sep "@" l d) by lia.
          rewrite <- (split_at_sep "@" l' d') by lia.
          rewrite Heq'. reflexivity. }
        injection Hpair as _ <-. exact Hp.
    + intros H. apply Hnone in H. rewrite H in Hs. destruct l; discriminate.
    + intros s Hs' Hc. apply Hs0 in Hs'. subst s. rewrite Hs in Hc. contradiction.
  - (* no separator, or several *)
    exists false. split.
    + unfold validStudentEmail. fold s0. rewrite split_length.
      destruct (JS.count "@" s0) as [|[|n]]; try reflexivity. contradiction.
    + split; [|split]; try reflexivity.
      split; [discriminate|].
      intros (l & d & Heq & Hcnt & _). apply Hs0 in Heq. congruence.
Qed.

(** ** The asynchronous functions run on their own *)

Section RunAlone.

Variables (me : string) (v : nat).

(** A write by the rendering that is in the document takes effect. *)
Lemma upd_here (f : App -> App) (w : World) :
  view (fst w) = v -> upd (on_view v f) w = (f (fst w), snd w).
Proof. intros H. unfold upd, on_view. rewrite H, Nat.eqb_refl. reflexivity. Qed.

(** [forEach(addMessageToChat)] appends one bubble for each row. *)
Lemma add_all_appends (msgs : list Message) (k : Step) :
  forall w,
    currentUser (fst w) = Some me -> view (fst w) = v ->
    add_all v msgs k w
    = k (upd (fun a => set_chatMessages
                         (chatMessages a ++ map (bubble_of me) msgs) a) w).
Proof.
  induction msgs as [|m msgs IH]; intros [a p] Hme Hv; cbn [fst] in *.
  - cbn [add_all map]. unfold upd. cbn [fst snd]. rewrite app_nil_r.
    destruct a; reflexivity.
  - cbn [add_all]. unfold addMessageToChat. cbn [fst]. rewrite Hme.
    rewrite IH.
    + unfold upd, on_view. cbn [fst snd]. rewrite Hv, Nat.eqb_refl.
      cbn [chatMessages set_chatMessages map]. rewrite <- app_assoc.
      reflexivity.
    + unfold upd, on_view. cbn [fst]. rewrite Hv, Nat.eqb_refl. exact Hme.
    + unfold upd, on_view. cbn [fst]. rewrite Hv, Nat.eqb_refl. exact Hv.
Qed.

(** The loop of [loadConversations], each lookup served: one list item
    for each entry, in the order of the entries. *)
Lemma list_items_alone (k : Step) (os : list Outcome) :
  forall groups es w,
    currentUser (fst w) = Some me -> view (fst w) = v ->
    entries_of me groups = Some es ->
    complete (repeat Succeeds (List.length es) ++ os) (list_items v groups k w)
    = complete os
        (k (upd (fun a => set_convList
                            (convList a ++ map (item_of (users (snd w))) es) a)
                w)).
Proof.
  induction groups as [|g groups IH]; intros es [a p] Hme Hv Hes;
    cbn [fst snd] in *.
  - injection Hes as <-. cbn [list_items repeat List.length app map].
    unfold upd. cbn [fst snd]. rewrite app_nil_r. destruct a; reflexivity.
  - cbn [entries_of] in Hes.
    destruct (entry_of me g) as [e|] eqn:He; [|discriminate].
    destruct (entries_of me groups) as [es'|] eqn:Hes'; [|discriminate].
    injection Hes as <-.
    cbn [list_items]. unfold with_user. cbn [fst]. rewrite Hme, He.
    cbn [List.length repeat app complete snd fst perform].
    rewrite (IH es').
    + unfold upd, on_view. cbn [fst snd]. rewrite Hv, Nat.eqb_refl.
      cbn [convList set_convList map]. rewrite <- app_assoc. reflexivity.
    + unfold upd, on_view. cbn [fst]. rewrite Hv, Nat.eqb_refl. exact Hme.
    + unfold upd, on_view. cbn [fst]. rewrite Hv, Nat.eqb_refl. exact Hv.
    + reflexivity.
Qed.

(** [loadConversations()] on a store that serves every call: the list
    shows the conversations of [loadConversations_on], in their order. *)
Lemma loadConversations_alone (k : Step) (os : list Outcome) (w : World)
  (es : list Entry) :
  currentUser (fst w) = Some me -> view (fst w) = v ->
  loadConversations_on (messages (snd w)) me = Some es ->
  complete (Succeeds :: repeat Succeeds (List.length es) ++ os)
    (loadConversations v k w)
  = complete os
      (k (upd (set_convList (map (item_of (users (snd w))) es)) w)).
Proof.
  destruct w as [a p]. cbn [fst snd]. intros Hme Hv Hes.
  unfold loadConversations, with_user, upd, on_view. cbn [fst snd].
  rewrite Hv, Nat.eqb_refl. cbn [currentUser set_convList]. rewrite Hme.
  cbn [complete snd fst perform].
  rewrite (list_items_alone k os _ es); [| exact Hme | exact Hv | exact Hes].
  unfold upd. cbn [fst snd convList set_convList app]. reflexivity.
Qed.

(** [openConversation(cId)] past the teardown, on a store that serves
    both loads: the chat area shows the history in the order the store
    returned it, one new feed is open and held by the variable, and the
    form sends to this conversation. *)
Lemma openConversation_body_alone (cId : string) (w : World) :
  currentUser (fst w) = Some me -> view (fst w) = v ->
  let after := complete [Succeeds; Succeeds] (openConversation_body v cId w) in
  snd after = Finished /\
  chatMessages (fst (fst after))
  = map (bubble_of me) (run_query (listByConversation cId) (messages (snd w))) /\
  currentChatSubscription (fst (fst after)) = Some (next_channel (snd w)) /\
  channels (snd (fst after))
  = channels (snd w) ++ [mkFeed (next_channel (snd w)) cId v] /\
  onsubmit (fst (fst after)) = Some (cId, other_participant me cId).
Proof.
  destruct w as [a p]. cbn [fst snd]. intros Hme Hv. cbv zeta.
  unfold openConversation_body, with_user. cbn [fst]. rewrite Hme.
  cbn [complete snd fst perform rows_or_empty].
  rewrite !upd_here by (cbn; assumption).
  rewrite add_all_appends by (cbn; assumption).
  rewrite !upd_here by (cbn; assumption).
  cbn. repeat split; reflexivity.
Qed.

End RunAlone.

(** ** The ordering of query results *)

Section Ordering.

Variable ascending : bool.

Lemma before_ordered (x y : Message) :
  before ascending x y = true <-> ordered ascending x y.
Proof. unfold before, ordered. destruct ascending; apply Z.leb_le. Qed.

Lemma not_before_ordered (x y : Message) :
  before ascending x y = false -> ordered ascending y x.
Proof.
  unfold before, ordered. destruct ascending; intros H; apply Z.leb_gt in H; lia.
Qed.

Lemma ordered_trans (x y z : Message) :
  ordered ascending x y -> ordered ascending y z -> ordered ascending x z.
Proof. unfold ordered. destruct ascending; lia. Qed.

Lemma insert_row_perm (x : Message) (l : list Message) :
  Permutation (x :: l) (insert_row ascending x l).
Proof.
  induction l as [|y l IH]; simpl; [apply Permutation_refl|].
  destruct (before ascending x y); [apply Permutation_refl|].
  eapply perm_trans; [apply perm_swap|]. apply perm_skip. exact IH.
Qed.

Lemma insert_row_sorted (x : Message) (l : list Message) :
  StronglySorted (ordered ascending) l ->
  StronglySorted (ordered ascending) (insert_row ascending x l).
Proof.
  induction 1 as [|y l Hl IH Hy]; simpl.
  - constructor; constructor.
  - destruct (before ascending x y) eqn:E.
    + apply before_ordered in E. constructor.
      * constructor; assumption.
      * constructor; [exact E|].
        eapply Forall_impl; [|exact Hy].
        intros z Hz. eapply ordered_trans; eassumption.
    + apply not_before_ordered in E. constructor; [exact IH|].
      eapply Permutation_Forall; [apply insert_row_perm|].
      constructor; assumption.
Qed.

Lemma order_rows_perm (l : list Message) :
  Permutation (order_rows ascending l) l.
Proof.
  induction l as [|x l IH]; simpl; [constructor|].
  eapply perm_trans; [apply Permutation_sym, insert_row_perm|].
  apply perm_skip. exact IH.
Qed.

Lemma order_rows_sorted (l : list Message) :
  StronglySorted (ordered ascending) (order_rows ascending l).
Proof.
  induction l as [|x l IH]; simpl; [constructor|].
  apply insert_row_sorted. exact IH.
Qed.

End Ordering.

(** Rows in ascending order with pairwise different time stamps can be
    arranged in one way only. *)
Lemma ascending_unique (l l' : list Message) :
  StronglySorted (ordered true) l ->
  StronglySorted (fun x y => (created_at x < created_at y)%Z) l' ->
  Permutation l l' ->
  l = l'.
Proof.
  intros Hl. revert l'.
  induction Hl as [|y t Ht IH Hy]; intros l' Hl' Hp.
  - apply Permutation_nil in Hp. congruence.
  - destruct l' as [|x t'].
    + apply Permutation_sym, Permutation_nil in Hp. discriminate.
    + inversion Hl' as [|? ? Ht' Hx]; subst.
      assert (x = y) as ->.
      { assert (In y (x :: t')) as Hy'
            by (eapply Permutation_in; [exact Hp | left; reflexivity]).
        assert (In x (y :: t)) as Hx'
            by (eapply Permutation_in;
                [apply Permutation_sym; exact Hp | left; reflexivity]).
        destruct Hy' as [Hy' | Hy']; [exact Hy'|].
        destruct Hx' as [Hx' | Hx']; [symmetry; exact Hx'|].
        rewrite Forall_forall in Hx, Hy.
        specialize (Hx _ Hy'). specialize (Hy _ Hx').
        unfold ordered in Hy. lia. }
      f_equal. apply IH; [exact Ht'|].
      eapply Permutation_cons_inv. exact Hp.
Qed.

Lemma listByConversation_rows (cId : string) (table : list Message) :
  run_query (listByConversation cId) table
  = order_rows true (filter (in_conversation cId) table).
Proof.
  unfold run_query, listByConversation. simpl. f_equal.
  apply filter_ext. intros m. unfold in_conversation.
  apply andb_true_r.
Qed.

(** C6: the history query of a conversation returns the messages of that
    conversation, each once, in ascending order of creation time; three
    messages created at times 1, 2 and 3 under one conversation come
    back as [M1, M2, M3] however the table holds them.  The chat area
    of [openConversation] shows the rows in that order. *)
Theorem C6_listByConversation_ascending (p : Platform) (cId : string) :
  exists rows : list Message,
    perform (CallSelectMessages (listByConversation cId)) Succeeds p
    = (p, MessageRows (Some rows) None) /\
    StronglySorted (fun x y => (created_at x <= created_at y)%Z) rows /\
    Permutation rows (filter (in_conversation cId) (messages p)) /\
    (forall m, In m rows <-> In m (messages p) /\ conversation_id m = cId) /\
    (forall m1 m2 m3,
       created_at m1 = 1%Z -> created_at m2 = 2%Z -> created_at m3 = 3%Z ->
       Permutation (filter (in_conversation cId) (messages p)) [m1; m2; m3] ->
       rows = [m1; m2; m3]) /\
    (forall (a : App) (me : string),
       currentUser a = Some me ->
       chatMessages
         (fst (fst (complete [Succeeds; Succeeds]
                      (openConversation_body (view a) cId (a, p)))))
       = map (bubble_of me) rows).
Proof.
  exists (run_query (listByConversation cId) (messages p)).
  rewrite listByConversation_rows.
  pose proof (order_rows_sorted true (filter (in_conversation cId) (messages p)))
    as Hsorted.
  pose proof (order_rows_perm true (filter (in_conversation cId) (messages p)))
    as Hperm.
  split; [simpl; rewrite listByConversation_rows; reflexivity|].
  split; [exact Hsorted|]. split; [exact Hperm|]. split; [|split].
  - intros m. split.
    + intros H. eapply Permutation_in in H; [|exact Hperm].
      apply filter_In in H as [Hin Hc]. split; [exact Hin|].
      apply String.eqb_eq. exact Hc.
    + intros [Hin Hc]. eapply Permutation_in; [apply Permutation_sym, Hperm|].
      apply filter_In. split; [exact Hin|]. apply String.eqb_eq. exact Hc.
  - intros m1 m2 m3 H1 H2 H3 Hp.
    apply ascending_unique; [exact Hsorted| |].
    + repeat constructor; lia.
    + eapply perm_trans; eassumption.
  - intros a me Hme.
    destruct (openConversation_body_alone me (view a) cId (a, p) Hme eq_refl)
      as (_ & Hchat & _).
    rewrite Hchat. cbn [snd]. rewrite listByConversation_rows. reflexivity.
Qed.

Example listByConversation_three :
  let M1 := mkMessage 11 "a1-b2" "a1" (Some "b2") "one" 1 in
  let M2 := mkMessage 12 "a1-b2" "b2" (Some "a1") "two" 2 in
  let M3 := mkMessage 13 "a1-b2" "a1" (Some "b2") "three" 3 in
  let other := mkMessage 14 "a1-c3" "c3" (Some "a1") "elsewhere" 2 in
  run_query (listByConversation "a1-b2") [M3; other; M1; M2] = [M1; M2; M3].
Proof. reflexivity. Qed.

(** ** The grouping of messages into conversations *)

Section SortedLists.

Context {A : Type} (R : A -> A -> Prop).

Lemma StronglySorted_snoc (l : list A) (x : A) :
  StronglySorted R (l ++ [x]) <->
  StronglySorted R l /\ Forall (fun y => R y x) l.
Proof.
  induction l as [|a l IH]; simpl.
  - split; [intros _; split; constructor | intros _; repeat constructor].
  - split.
    + intros H. inversion H as [|? ? Hs Hf]; subst.
      apply IH in Hs as [Hs Hx]. apply Forall_app in Hf as [Hf Hax].
      inversion Hax; subst.
      split; constructor; assumption.
    + intros [H Hx]. inversion H as [|? ? Hs Hf]; subst.
      inversion Hx; subst. constructor.
      * apply IH. split; assumption.
      * apply Forall_app. split; [assumption | repeat constructor; assumption].
Qed.

Lemma StronglySorted_filter (f : A -> bool) (l : list A) :
  StronglySorted R l -> StronglySorted R (filter f l).
Proof.
  induction 1 as [|a l Hs IH Hf]; simpl; [constructor|].
  destruct (f a); [|exact IH].
  constructor; [exact IH|].
  rewrite Forall_forall in *. intros x Hx.
  apply filter_In in Hx as [Hx _]. auto.
Qed.

Lemma StronglySorted_map {B : Type} (f : B -> A) (l : list B) :
  StronglySorted R (map f l) ->
  StronglySorted (fun x y => R (f x) (f y)) l.
Proof.
  induction l as [|b l IH]; simpl; intros H; [constructor|].
  inversion H as [|? ? Hs Hf]; subst. constructor; [auto|].
  rewrite Forall_forall in *. intros x Hx. apply Hf, in_map, Hx.
Qed.

End SortedLists.

Section Grouping.

Lemma map_has_In (k : string) (g : ConvoMap) :
  map_has k g = true <-> In k (map fst g).
Proof.
  unfold map_has. rewrite existsb_exists, in_map_iff. split.
  - intros (e & He & Hk). apply String.eqb_eq in Hk. eauto.
  - intros (e & Hk & He). exists e. rewrite Hk, String.eqb_refl. auto.
Qed.

Lemma map_has_absent (k : string) (g : ConvoMap) :
  map_has k g = false <-> ~ In k (map fst g).
Proof.
  rewrite <- map_has_In. destruct (map_has k g); split; congruence.
Qed.

Lemma map_set_absent (k : string) (v : list Message) (g : ConvoMap) :
  map_has k g = false -> map_set k v g = g ++ [(k, v)].
Proof.
  induction g as [|[k' v'] g IH]; simpl; intros H; [reflexivity|].
  apply orb_false_iff in H as [Hk Hg]. simpl in Hk. rewrite Hk.
  rewrite IH by exact Hg. reflexivity.
Qed.

Lemma map_push_new (k : string) (v : list Message) (m : Message) (g : ConvoMap) :
  map_has k g = false -> map_push k m (g ++ [(k, v)]) = g ++ [(k, v ++ [m])].
Proof.
  induction g as [|[k' v'] g IH]; simpl; intros H.
  - rewrite String.eqb_refl. reflexivity.
  - apply orb_false_iff in H as [Hk Hg]. simpl in Hk. rewrite Hk.
    rewrite IH by exact Hg. reflexivity.
Qed.

(** A row of a conversation not seen before opens a group of its own at
    the end of the map. *)
Lemma group_step_new (g : ConvoMap) (m : Message) :
  map_has (conversation_id m) g = false ->
  group_step g m = g ++ [(conversation_id m, [m])].
Proof.
  intros H. unfold group_step. rewrite H.
  rewrite map_set_absent by exact H. apply map_push_new. exact H.
Qed.

Lemma group_step_old (g : ConvoMap) (m : Message) :
  map_has (conversation_id m) g = true ->
  group_step g m = map_push (conversation_id m) m g.
Proof. intros H. unfold group_step. rewrite H. reflexivity. Qed.

Lemma map_push_keys (k : string) (m : Message) (g : ConvoMap) :
  map fst (map_push k m g) = map fst g.
Proof.
  induction g as [|[k' v'] g IH]; simpl; [reflexivity|].
  destruct (String.eqb k' k); simpl; [reflexivity | rewrite IH; reflexivity].
Qed.

Lemma map_push_In (k : string) (m : Message) (g : ConvoMap) :
  NoDup (map fst g) ->
  forall k' ms', In (k', ms') (map_push k m g) ->
    (k' <> k /\ In (k', ms') g) \/
    (k' = k /\ exists ms, In (k, ms) g /\ ms' = ms ++ [m]).
Proof.
  induction g as [|[k0 v0] g IH]; simpl; intros Hnd k' ms' Hin; [contradiction|].
  inversion Hnd as [|? ? Hk0 Hnd']; subst.
  destruct (String.eqb k0 k) eqn:E.
  - apply String.eqb_eq in E. subst k0.
    destruct Hin as [Hin | Hin].
    + injection Hin as <- <-. right. split; [reflexivity|]. eauto.
    + left. split; [|auto]. intros ->. apply Hk0.
      apply in_map_iff. exists (k, ms'). auto.
  - apply String.eqb_neq in E.
    destruct Hin as [Hin | Hin].
    + injection Hin as <- <-. left. auto.
    + destruct (IH Hnd' _ _ Hin) as [[Hne H] | [-> (ms & H & ->)]].
      * left. auto.
      * right. split; [reflexivity|]. eauto.
Qed.

Lemma heads_app (g g' : ConvoMap) : heads (g ++ g') = heads g ++ heads g'.
Proof. apply flat_map_app. Qed.

Lemma heads_cons (k : string) (v : list Message) (g : ConvoMap) :
  heads ((k, v) :: g) = match v with [] => [] | x :: _ => [x] end ++ heads g.
Proof. reflexivity. Qed.

(** Pushing onto groups that are not empty leaves their first rows. *)
Lemma map_push_heads (k : string) (m : Message) (g : ConvoMap) :
  (forall k' ms, In (k', ms) g -> ms <> []) ->
  heads (map_push k m g) = heads g.
Proof.
  induction g as [|[k0 v0] g IH]; intros Hne; [reflexivity|].
  cbn [map_push]. destruct (String.eqb k0 k).
  - rewrite !heads_cons. destruct v0 as [|x v0]; [|reflexivity].
    exfalso. apply (Hne k0 []); [left; reflexivity | reflexivity].
  - rewrite !heads_cons. rewrite IH; [reflexivity|].
    intros k' ms H. apply (Hne k' ms). right. exact H.
Qed.

Lemma filter_snoc (k : string) (l : list Message) (m : Message) :
  filter (in_conversation k) (l ++ [m])
  = filter (in_conversation k) l
    ++ (if String.eqb (conversation_id m) k then [m] else []).
Proof. rewrite filter_app. reflexivity. Qed.

Lemma grouped_nil : grouped [] [].
Proof.
  repeat split; simpl; try contradiction; try constructor.
Qed.

(** One turn of the grouping loop keeps the groups in step with the rows
    gone through. *)
Lemma grouped_step (l : list Message) (g : ConvoMap) (m : Message) :
  grouped l g -> grouped (l ++ [m]) (group_step g m).
Proof.
  intros (Hnd & Hgroups & Hkeys & Hheads & Hsorted).
  destruct (map_has (conversation_id m) g) eqn:Hhas.
  - (* the conversation has its group already *)
    rewrite group_step_old by exact Hhas.
    assert (heads (map_push (conversation_id m) m g) = heads g) as Hh.
    { apply map_push_heads. intros k ms H. apply (Hgroups k ms H). }
    split; [rewrite map_push_keys; exact Hnd|].
    split; [|split; [|split]].
    + intros k' ms' Hin. rewrite filter_snoc.
      destruct (map_push_In _ _ _ Hnd _ _ Hin)
        as [[Hne H] | [-> (ms & H & ->)]].
      * destruct (Hgroups _ _ H) as [Hms ->]. split; [exact Hms|].
        destruct (String.eqb (conversation_id m) k') eqn:E.
        -- apply String.eqb_eq in E. congruence.
        -- rewrite app_nil_r. reflexivity.
      * destruct (Hgroups _ _ H) as [Hms ->].
        rewrite String.eqb_refl. split; [|reflexivity].
        intros Hn. apply app_eq_nil in Hn as [_ Hn]. discriminate.
    + intros x Hx. rewrite map_push_keys. apply in_app_iff in Hx as [Hx | [<- | []]].
      * auto.
      * apply map_has_In. exact Hhas.
    + rewrite Hh. intros x Hx. apply in_app_iff. auto.
    + rewrite Hh. intros asc Hs.
      apply StronglySorted_snoc in Hs as [Hs _]. auto.
  - (* a conversation not seen before *)
    rewrite group_step_new by exact Hhas.
    pose proof (proj1 (map_has_absent _ _) Hhas) as Hfresh.
    split; [|split; [|split; [|split]]].
    + rewrite map_app. simpl. apply NoDup_app; [exact Hnd | repeat constructor; auto |].
      intros k Hk [<- | []]. contradiction.
    + intros k' ms' Hin. rewrite filter_snoc.
      apply in_app_iff in Hin as [Hin | [Hin | []]].
      * destruct (Hgroups _ _ Hin) as [Hms ->]. split; [exact Hms|].
        destruct (String.eqb (conversation_id m) k') eqn:E.
        -- apply String.eqb_eq in E. subst k'. exfalso. apply Hfresh.
           apply in_map_iff. exists (conversation_id m, filter (in_conversation (conversation_id m)) l). auto.
        -- rewrite app_nil_r. reflexivity.
      * injection Hin as <- <-. split; [discriminate|].
        rewrite String.eqb_refl.
        assert (filter (in_conversation (conversation_id m)) l = []) as ->; [|reflexivity].
        destruct (filter (in_conversation (conversation_id m)) l) as [|x r] eqn:E;
          [reflexivity|].
        assert (In x (filter (in_conversation (conversation_id m)) l)) as Hx
            by (rewrite E; left; reflexivity).
        apply filter_In in Hx as [Hx Hc]. apply String.eqb_eq in Hc.
        exfalso. apply Hfresh. rewrite <- Hc. auto.
    + intros x Hx. rewrite map_app, in_app_iff.
      apply in_app_iff in Hx as [Hx | [<- | []]]; [left; auto | right; left; reflexivity].
    + rewrite heads_app. simpl. intros x Hx. rewrite in_app_iff in *.
      destruct Hx as [Hx | Hx]; auto.
    + rewrite heads_app. simpl. intros asc Hs.
      apply StronglySorted_snoc in Hs as [Hs Hm].
      apply StronglySorted_snoc. split; [auto|].
      rewrite Forall_forall in *. auto.
Qed.

Lemma groupMessages_snoc (l : list Message) (m : Message) :
  groupMessages (l ++ [m]) = group_step (groupMessages l) m.
Proof. unfold groupMessages. rewrite fold_left_app. reflexivity. Qed.

(** The map the grouping loop returns. *)
Lemma groupMessages_grouped (l : list Message) : grouped l (groupMessages l).
Proof.
  induction l as [|m l IH] using rev_ind.
  - exact grouped_nil.
  - rewrite groupMessages_snoc. apply grouped_step. exact IH.
Qed.

End Grouping.

(** ** The conversation list *)

Section ConversationList.

Variable me : string.

Lemma takes_part_involves (m : Message) :
  takes_part me m = true <-> involves me m.
Proof.
  unfold takes_part, involves. rewrite orb_true_iff, String.eqb_eq.
  destruct (receiver_id m) as [r|].
  - rewrite String.eqb_eq. split; intros [H | H]; auto; [right; congruence|].
    right. congruence.
  - split; intros [H | H]; auto; discriminate.
Qed.

Lemma listByParticipant_rows (table : list Message) :
  run_query (listByParticipant me) table
  = order_rows false (filter (takes_part me) table).
Proof.
  unfold run_query, listByParticipant. simpl. f_equal.
  apply filter_ext. intros m. unfold takes_part. simpl.
  rewrite andb_true_r. reflexivity.
Qed.

(** The loop over the groups does not fail when no group is empty, and
    lists the groups in the order of the map. *)
Lemma entries_of_groups (g : ConvoMap) :
  (forall k ms, In (k, ms) g -> ms <> []) ->
  exists es,
    entries_of me g = Some es /\
    map entry_conv es = map fst g /\
    map entry_last es = heads g /\
    forall e, In e es ->
      (exists rest, In (entry_conv e, entry_last e :: rest) g) /\
      entry_other e = if String.eqb (sender_id (entry_last e)) me
                      then receiver_id (entry_last e)
                      else Some (sender_id (entry_last e)).
Proof.
  induction g as [|[k ms] g IH]; intros Hne.
  - exists []. do 3 (split; [reflexivity|]). intros e0 [].
  - destruct IH as (es & Hes & Hconv & Hlast & Hall).
    { intros k' ms' H. apply (Hne k' ms'). right. exact H. }
    destruct ms as [|x rest].
    { exfalso. apply (Hne k []); [left; reflexivity | reflexivity]. }
    exists (mkEntry k x (if String.eqb (sender_id x) me then receiver_id x
                         else Some (sender_id x)) :: es).
    cbn [entries_of entry_of snd fst]. rewrite Hes.
    split; [reflexivity|].
    split; [simpl; rewrite Hconv; reflexivity|].
    split; [rewrite heads_cons; simpl; rewrite Hlast; reflexivity|].
    intros e0 [<- | He].
    + simpl. split; [exists rest; left; reflexivity | reflexivity].
    + destruct (Hall e0 He) as [(r & Hr) Ho]. split; [|exact Ho].
      exists r. right. exact Hr.
Qed.

End ConversationList.

(** C7: on the messages of a user, [loadConversations] makes one entry
    for each conversation the user takes part in; the representative of
    an entry is a message of that conversation no other message of the
    conversation is more recent than; the counterpart is the participant
    of the representative who is not the user; the entries are ordered by
    the creation time of their representatives, most recent first, and
    the list on the page shows one item for each entry in that order.  With
    conversations "a1-b2" (latest at 5) and "a1-c3" (latest at 9) the
    list is ["a1-c3", "a1-b2"]. *)
Theorem C7_loadConversations_groups_and_orders (table : list Message) (me : string) :
  exists es : list Entry,
    loadConversations_on table me = Some es /\
    NoDup (map entry_conv es) /\
    (forall m, In m table -> involves me m ->
               In (conversation_id m) (map entry_conv es)) /\
    (forall e, In e es ->
       In (entry_last e) table /\ involves me (entry_last e) /\
       conversation_id (entry_last e) = entry_conv e /\
       (forall m, In m table -> involves me m ->
                  conversation_id m = entry_conv e ->
                  (created_at m <= created_at (entry_last e))%Z) /\
       (forall other, other <> me ->
          sender_id (entry_last e) = other \/
          receiver_id (entry_last e) = Some other ->
          entry_other e = Some other)) /\
    most_recent_first es /\
    (forall (a : App) (p : Platform) (k : Step) (os : list Outcome),
       currentUser a = Some me -> messages p = table ->
       complete (Succeeds :: repeat Succeeds (List.length es) ++ os)
         (loadConversations (view a) k (a, p))
       = complete os (k (set_convList (map (item_of (users p)) es) a, p))) /\
    (let M1 := mkMessage 1 "a1-b2" "a1" (Some "b2") "first" 3 in
     let M2 := mkMessage 2 "a1-c3" "c3" (Some "a1") "second" 4 in
     let M3 := mkMessage 3 "a1-b2" "b2" (Some "a1") "third" 5 in
     let M4 := mkMessage 4 "a1-c3" "a1" (Some "c3") "fourth" 9 in
     let M5 := mkMessage 5 "b2-c3" "b2" (Some "c3") "not mine" 10 in
     option_map (map entry_conv)
       (loadConversations_on [M1; M2; M3; M4; M5] "a1")
     = Some ["a1-c3"; "a1-b2"]).
Proof.
  unfold loadConversations_on, conversations. cbn [rows_or_empty].
  set (data := run_query (listByParticipant me) table).
  assert (Permutation data (filter (takes_part me) table)) as Hperm.
  { unfold data. rewrite listByParticipant_rows. apply order_rows_perm. }
  assert (StronglySorted (ordered false) data) as Hsorted.
  { unfold data. rewrite listByParticipant_rows. apply order_rows_sorted. }
  assert (forall m, In m data <-> In m table /\ involves me m) as Hdata.
  { intros m. rewrite <- takes_part_involves, <- filter_In. split; intros H.
    - eapply Permutation_in; [exact Hperm | exact H].
    - eapply Permutation_in; [apply Permutation_sym; exact Hperm | exact H]. }
  destruct (groupMessages_grouped data)
    as (Hnd & Hgroups & Hkeys & Hheads & Hhsorted).
  destruct (entries_of_groups me (groupMessages data))
    as (es & Hes & Hconv & Hlast & Hall).
  { intros k ms H. apply (Hgroups k ms H). }
  exists es. split; [exact Hes|].
  split; [rewrite Hconv; exact Hnd|].
  split; [intros m Hm Hi; rewrite Hconv; apply Hkeys, Hdata; auto|].
  split; [|split; [|split]].
  - intros e He. destruct (Hall e He) as [(rest & Hin) Hother].
    destruct (Hgroups _ _ Hin) as [_ Hfilter].
    assert (In (entry_last e) (filter (in_conversation (entry_conv e)) data))
      as Hrep by (rewrite <- Hfilter; left; reflexivity).
    apply filter_In in Hrep as [Hrep Hc]. apply String.eqb_eq in Hc.
    pose proof (proj1 (Hdata _) Hrep) as [Htable Hinv].
    split; [exact Htable|]. split; [exact Hinv|]. split; [exact Hc|]. split.
    + intros m Hm Hi Hcm.
      assert (In m (entry_last e :: rest)) as Hmg.
      { rewrite Hfilter. apply filter_In. split; [apply Hdata; auto|].
        apply String.eqb_eq. exact Hcm. }
      pose proof (StronglySorted_filter (ordered false)
                    (in_conversation (entry_conv e)) data Hsorted) as Hs.
      rewrite <- Hfilter in Hs. inversion Hs as [|? ? _ Hf]; subst.
      destruct Hmg as [<- | Hmg]; [lia|].
      rewrite Forall_forall in Hf. apply (Hf m Hmg).
    + intros other Hne Hpart. rewrite Hother.
      destruct (String.eqb (sender_id (entry_last e)) me) eqn:E.
      * apply String.eqb_eq in E. destruct Hpart as [Hp | Hp]; congruence.
      * apply String.eqb_neq in E.
        destruct Hinv as [Hi | Hi]; [contradiction|].
        destruct Hpart as [Hp | Hp]; congruence.
  - unfold most_recent_first.
    apply (StronglySorted_map (ordered false) entry_last).
    rewrite Hlast. apply Hhsorted. exact Hsorted.
  - intros a p k os Hme Htable.
    apply (loadConversations_alone me (view a) k os (a, p) es Hme eq_refl).
    cbn [snd]. rewrite Htable. exact Hes.
  - reflexivity.
Qed.

(** ** Sending a message *)

Section Trim.

Lemma trimStart_cases (s : string) :
  (JS.trimStart s = ""%string /\ all_space s = true) \/
  (exists c r, JS.trimStart s = String c r /\ JS.is_space c = false
               /\ all_space s = false).
Proof.
  induction s as [|c s IH]; simpl; [left; split; reflexivity|].
  destruct (JS.is_space c) eqn:E; simpl.
  - exact IH.
  - right. exists c, s. auto.
Qed.

Lemma trimEnd_nonspace (c : ascii) (r : string) :
  JS.is_space c = false -> JS.trimEnd (String c r) <> ""%string.
Proof.
  intros E. simpl. rewrite E. destruct (JS.trimEnd r); discriminate.
Qed.

(** The strings [trim] empties are the strings of white space. *)
Lemma trim_empty_iff (s : string) :
  JS.trim s = ""%string <-> all_space s = true.
Proof.
  unfold JS.trim.
  destruct (trimStart_cases s) as [[-> Ha] | (c & r & -> & Hc & Ha)].
  - split; [intros _; exact Ha | reflexivity].
  - split; [|congruence]. intros H. exfalso.
    exact (trimEnd_nonspace c r Hc H).
Qed.

End Trim.

(** C5: when the content of the input field is empty once trimmed, the
    submit handler ends at once: it issues no call to the store, and it
    leaves the input field, like the rest of the client and the store,
    as it was. *)
Theorem C5_empty_message_not_sent
  (sys : System) (cId : string) (otherId : option string) :
  on_messages_page sys = true ->
  onsubmit (fst (world sys)) = Some (cId, otherId) ->
  JS.trim (messageInput (fst (world sys))) = ""%string ->
  step Submit sys = Some (mkSystem (world sys) (tasks sys ++ [Finished])) /\
  forall os,
    calls os (onsubmit_handler (view (fst (world sys))) cId otherId (world sys))
    = [].
Proof.
  intros Hpage Hon Htrim.
  assert (onsubmit_handler (view (fst (world sys))) cId otherId (world sys)
          = (world sys, Finished)) as Hrun.
  { unfold onsubmit_handler. rewrite Htrim. reflexivity. }
  split.
  - unfold step. rewrite Hpage, Hon. unfold spawn. rewrite Hrun. reflexivity.
  - intros os. rewrite Hrun. destruct os; reflexivity.
Qed.

(** What the submit handler does with content that is not empty: one
    insert, and whatever result comes back, short of a rejected promise,
    the field is emptied. *)
Lemma onsubmit_handler_sends
  (v : nat) (cId me : string) (otherId : option string) (w : World) :
  currentUser (fst w) = Some me ->
  JS.trim (messageInput (fst w)) <> ""%string ->
  exists k,
    onsubmit_handler v cId otherId w
    = (w, Await (CallInsertMessage cId me otherId
                   (JS.trim (messageInput (fst w)))) k) /\
    k Rejected = (fun w' => (w', Crashed)) /\
    forall error, k (Inserted error)
                  = (fun w' => (upd (on_view v (set_messageInput "")) w', Finished)).
Proof.
  intros Hme Htrim. unfold onsubmit_handler.
  destruct (JS.trim (messageInput (fst w))) as [|c s] eqn:E; [contradiction|].
  unfold with_user. rewrite Hme. eexists. split; [reflexivity|].
  split; [reflexivity | intros error; reflexivity].
Qed.

(** C4, as the program behaves: after an insert that the store refuses
    ([AccessDenied]) or fails to carry out ([StoreFailure]), the submit
    handler empties the input field all the same; the store holds no new
    row and no notification is shown. *)
Theorem C4_failed_insert_clears_input
  (w : World) (cId me : string) (otherId : option string) (e : StoreError) :
  currentUser (fst w) = Some me ->
  JS.trim (messageInput (fst w)) <> ""%string ->
  let after := complete [Fails e]
                 (onsubmit_handler (view (fst w)) cId otherId w) in
  snd after = Finished /\
  messageInput (fst (fst after)) = ""%string /\
  messages (snd (fst after)) = messages (snd w) /\
  notifications (fst (fst after)) = notifications (fst w).
Proof.
  intros Hme Htrim.
  destruct (onsubmit_handler_sends (view (fst w)) cId me otherId w Hme Htrim)
    as (k & Hrun & _ & Hk).
  cbv zeta. rewrite Hrun. cbn [complete snd fst perform]. rewrite Hk.
  destruct w as [a p]. cbn [complete snd fst upd].
  unfold on_view. rewrite Nat.eqb_refl. repeat split; reflexivity.
Qed.

Lemma C4_failed_insert_clears_input_witness :
  let w := (mkApp (Some "a1") (Some 0) (RouteMessages (Some "a1-b2")) "messages" 1 [] "Bo"
              [] "hello" (Some ("a1-b2", Some "b2")) [],
            mkPlatform [] [] [mkFeed 0 "a1-b2" 1] 1 0 0 []) in
  let after := complete [Fails AccessDenied]
                 (onsubmit_handler 1 "a1-b2" (Some "b2") w) in
  snd after = Finished /\
  messageInput (fst (fst after)) = ""%string /\
  messages (snd (fst after)) = [] /\
  notifications (fst (fst after)) = [].
Proof.
  apply (C4_failed_insert_clears_input
           (mkApp (Some "a1") (Some 0) (RouteMessages (Some "a1-b2")) "messages" 1 [] "Bo"
              [] "hello" (Some ("a1-b2", Some "b2")) [],
            mkPlatform [] [] [mkFeed 0 "a1-b2" 1] 1 0 0 [])
           "a1-b2" "a1" (Some "b2") AccessDenied).
  - reflexivity.
  - discriminate.
Defined.

Lemma C5_empty_message_not_sent_witness :
  let sys := mkSystem
               (mkApp (Some "a1") (Some 0) (RouteMessages (Some "a1-b2")) "messages" 1 []
                  "Bo" [] "   " (Some ("a1-b2", Some "b2")) [],
                mkPlatform [] [] [mkFeed 0 "a1-b2" 1] 1 0 0 []) [] in
  step Submit sys = Some (mkSystem (world sys) [Finished]) /\
  forall os, calls os (onsubmit_handler 1 "a1-b2" (Some "b2") (world sys)) = [].
Proof.
  apply (C5_empty_message_not_sent
           (mkSystem
              (mkApp (Some "a1") (Some 0) (RouteMessages (Some "a1-b2")) "messages" 1 []
                 "Bo" [] "   " (Some ("a1-b2", Some "b2")) [],
               mkPlatform [] [] [mkFeed 0 "a1-b2" 1] 1 0 0 []) [])
           "a1-b2" (Some "b2")); reflexivity.
Defined.

(** Only a rejected promise leaves the typed content where it is. *)
Lemma rejected_insert_keeps_input
  (w : World) (cId me : string) (otherId : option string) :
  currentUser (fst w) = Some me ->
  JS.trim (messageInput (fst w)) <> ""%string ->
  complete [Throws] (onsubmit_handler (view (fst w)) cId otherId w)
  = (w, Crashed).
Proof.
  intros Hme Htrim.
  destruct (onsubmit_handler_sends (view (fst w)) cId me otherId w Hme Htrim)
    as (k & Hrun & Hk & _).
  rewrite Hrun. cbn [complete snd fst perform]. rewrite Hk.
  destruct w as [a p]. reflexivity.
Qed.

(** C9: a message that is sent is not added to the chat area by the
    submit handler: whatever the store answers, the rendered messages are
    those of before.  An accepted message is a new row of the store, with
    an insert event for each open feed of its conversation; the callback
    of the feed is what appends it to the chat area. *)
Theorem C9_send_does_not_echo
  (w : World) (v : nat) (cId me : string) (otherId : option string) :
  currentUser (fst w) = Some me ->
  JS.trim (messageInput (fst w)) <> ""%string ->
  (forall o,
     chatMessages (fst (fst (complete [o] (onsubmit_handler v cId otherId w))))
     = chatMessages (fst w)) /\
  (let after := complete [Succeeds] (onsubmit_handler v cId otherId w) in
   let row := sent_row (snd w) cId me otherId (JS.trim (messageInput (fst w))) in
   snd after = Finished /\
   messages (snd (fst after)) = messages (snd w) ++ [row] /\
   pending (snd (fst after))
   = pending (snd w) ++ events_for row (channels (snd w))) /\
  (forall f row,
     feed_view f = view (fst w) ->
     chatMessages (fst (feed_callback f row w))
     = chatMessages (fst w)
       ++ [Bubble (String.eqb (sender_id row) me) (content row)]).
Proof.
  intros Hme Htrim.
  destruct (onsubmit_handler_sends v cId me otherId w Hme Htrim)
    as (k & Hrun & Hrej & Hk).
  destruct w as [a p]. cbn [fst snd] in *.
  split; [|split].
  - intros o. rewrite Hrun. cbn [complete snd fst].
    destruct o; cbn [perform]; rewrite ?Hrej, ?Hk; cbn [complete snd fst upd];
      unfold on_view; destruct (view a =? v)%nat; reflexivity.
  - cbv zeta. rewrite Hrun. cbn [complete snd fst perform]. rewrite Hk.
    cbn [complete snd fst upd messages pending]. repeat split; reflexivity.
  - intros f row Hv. unfold feed_callback, addMessageToChat.
    cbn [fst]. rewrite Hme. cbn [upd fst]. unfold on_view.
    rewrite Hv, Nat.eqb_refl. reflexivity.
Qed.

Lemma C9_send_does_not_echo_witness :
  let w := (mkApp (Some "a1") (Some 0) (RouteMessages (Some "a1-b2")) "messages" 1 [] "Bo"
              [Bubble false "hi"] " hello " (Some ("a1-b2", Some "b2")) [],
            mkPlatform [mkMessage 0 "a1-b2" "b2" (Some "a1") "hi" 7] []
              [mkFeed 0 "a1-b2" 1] 1 1 8 []) in
  (forall o,
     chatMessages (fst (fst (complete [o]
                                (onsubmit_handler 1 "a1-b2" (Some "b2") w))))
     = [Bubble false "hi"]) /\
  (let after := complete [Succeeds] (onsubmit_handler 1 "a1-b2" (Some "b2") w) in
   let row := mkMessage 1 "a1-b2" "a1" (Some "b2") "hello" 8 in
   snd after = Finished /\
   messages (snd (fst after))
   = [mkMessage 0 "a1-b2" "b2" (Some "a1") "hi" 7; row] /\
   pending (snd (fst after)) = [(0, row)]) /\
  (forall f row,
     feed_view f = 1 ->
     chatMessages (fst (feed_callback f row w))
     = [Bubble false "hi"; Bubble (String.eqb (sender_id row) "a1") (content row)]).
Proof.
  apply (C9_send_does_not_echo
           (mkApp (Some "a1") (Some 0) (RouteMessages (Some "a1-b2")) "messages" 1 [] "Bo"
              [Bubble false "hi"] " hello " (Some ("a1-b2", Some "b2")) [],
            mkPlatform [mkMessage 0 "a1-b2" "b2" (Some "a1") "hi" 7] []
              [mkFeed 0 "a1-b2" 1] 1 1 8 [])
           1 "a1-b2" "a1" (Some "b2")).
  - reflexivity.
  - discriminate.
Defined.

(** ** Teardown on navigation *)

(** C8: the teardown at the head of [handleRoute] always ends, and ends
    with no subscription held.  With a subscription held it asks the
    platform to close that feed and goes on in the same way whether the
    request succeeds, fails or throws, so that the page of the route is
    rendered in every case; a feed whose teardown succeeds is no longer
    open.  With no subscription held it issues no call and changes
    nothing. *)
Theorem C8_cleanup_total (w : World) (o : Outcome) :
  let after := complete [o] (handleRoute_cleanup finish w) in
  snd after = Finished /\
  currentChatSubscription (fst (fst after)) = None /\
  (currentChatSubscription (fst w) = None ->
   handleRoute_cleanup finish w = (w, Finished) /\
   forall k, handleRoute_cleanup k w = k w) /\
  (forall ch, currentChatSubscription (fst w) = Some ch ->
     calls [o] (handleRoute_cleanup finish w) = [CallUnsubscribe ch] /\
     fst after = (set_subscription None (fst w),
                  fst (perform (CallUnsubscribe ch) o (snd w))) /\
     (o = Succeeds ->
      ~ In ch (map feed_id (channels (snd (fst after))))) /\
     forall k, complete [o] (handleRoute_cleanup k w)
               = k (set_subscription None (fst w),
                    fst (perform (CallUnsubscribe ch) o (snd w)))).
Proof.
  destruct w as [a p]. unfold handleRoute_cleanup. cbn [fst snd].
  destruct (currentChatSubscription a) as [ch0|] eqn:Hsub.
  - cbv zeta. cbn [complete calls snd fst].
    destruct (perform (CallUnsubscribe ch0) o p) as [p' r] eqn:Hp.
    cbn [complete calls snd fst finish upd].
    split; [reflexivity|]. split; [reflexivity|].
    split; [discriminate|].
    intros ch Hch. injection Hch as <-. rewrite Hp. cbn [fst].
    split; [reflexivity|]. split; [reflexivity|]. split.
    + intros ->. cbn [perform] in Hp. injection Hp as <- _.
      cbn [channels]. unfold remove_channel. intros Hin.
      apply in_map_iff in Hin as (f & Hf & Hin).
      apply filter_In in Hin as [_ Hne]. rewrite Hf, Nat.eqb_refl in Hne.
      discriminate.
    + intros k. destruct (k (set_subscription None a, p')) as [w' t'] eqn:Hk.
      unfold upd. cbn [fst snd]. rewrite Hk. destruct t'; reflexivity.
  - cbv zeta. cbn [complete snd fst finish].
    split; [reflexivity|]. split; [exact Hsub|].
    split; [intros _; split; [reflexivity | intros k; reflexivity]|].
    discriminate.
Qed.

(** ** Operations that do not overlap *)

Section OneAtATime.

Lemma tracked_same (w w' : World) :
  channels (snd w') = channels (snd w) ->
  currentChatSubscription (fst w') = currentChatSubscription (fst w) ->
  tracked w -> tracked w'.
Proof. unfold tracked. intros -> ->. auto. Qed.

Lemma tracked_on_view (v : nat) (f : App -> App) (w : World) :
  (forall a, currentChatSubscription (f a) = currentChatSubscription a) ->
  tracked w -> tracked (upd (on_view v f) w).
Proof.
  intros Hf. apply tracked_same; [reflexivity|].
  unfold upd, on_view. cbn [fst]. destruct (view (fst w) =? v)%nat; auto.
Qed.

Lemma tracked_at_most_one (w : World) :
  tracked w -> List.length (channels (snd w)) <= 1.
Proof.
  unfold tracked. intros H. rewrite <- (length_map feed_id), H.
  destruct (currentChatSubscription (fst w)); simpl; lia.
Qed.

(** The loads and the insert leave the feeds alone. *)
Lemma perform_keeps_channels (c : Call) (o : Outcome) (p : Platform) :
  (forall ch, c <> CallUnsubscribe ch) ->
  channels (fst (perform c o p)) = channels p.
Proof.
  intros Hc. destruct c, o; try reflexivity. exfalso. eapply Hc. reflexivity.
Qed.

Lemma keeps_track_finish : keeps_track finish.
Proof. intros os w H. destruct os; exact H. Qed.

Lemma keeps_track_crash (os : list Outcome) (w : World) :
  tracked w -> tracked (fst (complete os (w, Crashed))).
Proof. intros H. destruct os; exact H. Qed.

(** A function suspended on a load goes on keeping track if what follows
    the load does. *)
Lemma keeps_track_await (c : Call) (k : Reply -> Step) :
  (forall ch, c <> CallUnsubscribe ch) ->
  (forall r, keeps_track (k r)) ->
  forall os w, tracked w -> tracked (fst (complete os (w, Await c k))).
Proof.
  intros Hc Hk os [a p] Hw. destruct os as [|o os]; [exact Hw|].
  cbn [complete snd fst].
  destruct (perform c o p) as [p' r] eqn:Hp.
  apply Hk. revert Hw. apply tracked_same; [|reflexivity].
  cbn [snd]. replace p' with (fst (perform c o p)) by (rewrite Hp; reflexivity).
  apply perform_keeps_channels. exact Hc.
Qed.

Lemma keeps_track_with_user (k : string -> Step) :
  (forall me, keeps_track (k me)) -> keeps_track (with_user k).
Proof.
  intros Hk os w Hw. unfold with_user.
  destruct (currentUser (fst w)); [apply Hk; exact Hw|].
  apply keeps_track_crash. exact Hw.
Qed.

Lemma keeps_track_list_items (v : nat) (k : Step) :
  keeps_track k -> forall groups, keeps_track (list_items v groups k).
Proof.
  intros Hk. induction groups as [|g groups IH]; [exact Hk|].
  cbn [list_items]. apply keeps_track_with_user. intros me os w Hw.
  destruct (entry_of me g) as [e|]; [|apply keeps_track_crash; exact Hw].
  apply keeps_track_await; [discriminate | | exact Hw].
  intros r os' w' Hw'.
  destruct r; try (apply keeps_track_crash; exact Hw').
  apply IH. apply tracked_on_view; [reflexivity | exact Hw'].
Qed.

Lemma keeps_track_loadConversations (v : nat) (k : Step) :
  keeps_track k -> keeps_track (loadConversations v k).
Proof.
  intros Hk os w Hw. unfold loadConversations.
  apply keeps_track_with_user;
    [|apply tracked_on_view; [reflexivity | exact Hw]].
  intros me os' w' Hw'.
  apply keeps_track_await; [discriminate | | exact Hw'].
  intros r os'' w'' Hw''.
  destruct r as [| | |data [e|]|]; try (apply keeps_track_crash; exact Hw'').
  - apply Hk. revert Hw''. apply tracked_same; reflexivity.
  - apply keeps_track_list_items; assumption.
Qed.

Lemma keeps_track_add_all (v : nat) (k : Step) :
  keeps_track k -> forall msgs, keeps_track (add_all v msgs k).
Proof.
  intros Hk. induction msgs as [|m msgs IH]; [exact Hk|].
  intros os w Hw. cbn [add_all]. unfold addMessageToChat.
  destruct (currentUser (fst w)); [|apply keeps_track_crash; exact Hw].
  apply IH. apply tracked_on_view; [reflexivity | exact Hw].
Qed.

(** With no subscription held, [openConversation] opens the one feed. *)
Lemma openConversation_body_keeps_track (v : nat) (cId : string) :
  forall os w,
    tracked w -> currentChatSubscription (fst w) = None ->
    tracked (fst (complete os (openConversation_body v cId w))).
Proof.
  intros os [a p] Hw Hnone. unfold openConversation_body, with_user.
  cbn [fst] in *.
  destruct (currentUser a) as [me|]; [|apply keeps_track_crash; exact Hw].
  destruct os as [|o os]; [exact Hw|].
  cbn [complete snd fst].
  destruct (perform (CallSelectUser (other_participant me cId)) o p)
    as [p1 r1] eqn:Hp1.
  assert (channels p1 = channels p) as Hc1.
  { replace p1 with (fst (perform (CallSelectUser (other_participant me cId)) o p))
      by (rewrite Hp1; reflexivity).
    apply perform_keeps_channels. discriminate. }
  assert (tracked (a, p1)) as Hw1
      by (revert Hw; apply tracked_same; [exact Hc1 | reflexivity]).
  destruct r1 as [| |other| |]; try (apply keeps_track_crash; exact Hw1).
  set (w2 := upd _ (a, p1)).
  assert (tracked w2 /\ currentChatSubscription (fst w2) = None) as [Hw2 Hn2].
  { split.
    - apply tracked_on_view; [reflexivity | exact Hw1].
    - unfold w2, upd, on_view. cbn [fst]. destruct (view a =? v)%nat; exact Hnone. }
  clearbody w2. destruct w2 as [a2 p2]. cbn [fst] in Hn2.
  destruct os as [|o2 os]; [exact Hw2|].
  cbn [complete snd fst].
  destruct (perform (CallSelectMessages (listByConversation cId)) o2 p2)
    as [p3 r3] eqn:Hp3.
  assert (channels p3 = channels p2) as Hc3.
  { replace p3 with (fst (perform (CallSelectMessages (listByConversation cId)) o2 p2))
      by (rewrite Hp3; reflexivity).
    apply perform_keeps_channels. discriminate. }
  assert (tracked (a2, p3)) as Hw3
      by (revert Hw2; apply tracked_same; [exact Hc3 | reflexivity]).
  destruct r3 as [| | |msgs err|]; try (apply keeps_track_crash; exact Hw3).
  set (w4 := upd _ (a2, p3)).
  assert (tracked w4 /\ currentChatSubscription (fst w4) = None) as [Hw4 Hn4].
  { split.
    - apply tracked_on_view; [reflexivity | exact Hw3].
    - unfold w4, upd, on_view. cbn [fst]. destruct (view a2 =? v)%nat; exact Hn2. }
  clearbody w4. revert os w4 Hw4 Hn4.
  induction (rows_or_empty msgs) as [|m ms IH]; intros os w4 Hw4 Hn4.
  - cbn [add_all]. apply keeps_track_finish.
    unfold tracked in *. unfold upd, on_view, subscribe. cbn [fst snd].
    rewrite Hn4 in Hw4. apply map_eq_nil in Hw4. rewrite Hw4.
    destruct (view (set_subscription (Some (next_channel (snd w4))) (fst w4)) =? v)%nat;
      reflexivity.
  - cbn [add_all]. unfold addMessageToChat.
    destruct (currentUser (fst w4)); [|apply keeps_track_crash; exact Hw4].
    apply IH.
    + apply tracked_on_view; [reflexivity | exact Hw4].
    + unfold upd, on_view. cbn [fst]. destruct (view (fst w4) =? v)%nat; exact Hn4.
Qed.

Lemma remove_only_channel (ch : nat) (fs : list Feed) :
  map feed_id fs = [ch] -> remove_channel ch fs = [].
Proof.
  destruct fs as [|f [|g fs]]; try discriminate. simpl.
  intros H. injection H as ->. rewrite Nat.eqb_refl. reflexivity.
Qed.

(** [openConversation] closes the feed it finds before it opens its own. *)
Lemma keeps_track_openConversation (v : nat) (cId : string) :
  keeps_track (openConversation v cId).
Proof.
  intros os [a p] Hw. unfold openConversation. cbn [fst].
  destruct (currentChatSubscription a) as [ch|] eqn:Hsub;
    [|apply openConversation_body_keeps_track; assumption].
  destruct os as [|o os]; [exact Hw|].
  cbn [complete snd fst].
  destruct o; cbn [perform]; try (apply keeps_track_crash; exact Hw).
  apply openConversation_body_keeps_track; [|reflexivity].
  unfold tracked in *. cbn [fst snd upd channels currentChatSubscription set_subscription] in *.
  rewrite Hsub in Hw. rewrite (remove_only_channel _ _ Hw). reflexivity.
Qed.

Lemma keeps_track_onsubmit_handler (v : nat) (cId : string) (otherId : option string) :
  keeps_track (onsubmit_handler v cId otherId).
Proof.
  intros os w Hw. unfold onsubmit_handler.
  destruct (JS.trim (messageInput (fst w))); [apply keeps_track_finish; exact Hw|].
  apply keeps_track_with_user; [|exact Hw].
  intros me os' w' Hw'.
  apply keeps_track_await; [discriminate | | exact Hw'].
  intros r os'' w'' Hw''.
  destruct r; try (apply keeps_track_crash; exact Hw'');
    (apply keeps_track_finish; apply tracked_on_view; [reflexivity | exact Hw'']).
Qed.

Lemma keeps_track_dispatch : keeps_track dispatch.
Proof.
  intros os w Hw. unfold dispatch.
  destruct (location_hash (fst w)) as [id | name].
  - destruct (currentUser (fst w)).
    + unfold renderMessagesPage.
      apply keeps_track_loadConversations.
      * destruct id as [[|c0 s0]|];
          try apply keeps_track_finish; apply keeps_track_openConversation.
      * revert Hw. apply tracked_same; reflexivity.
    + apply keeps_track_finish. revert Hw. apply tracked_same; reflexivity.
  - apply keeps_track_finish. revert Hw. apply tracked_same; reflexivity.
Qed.

(** [handleRoute] keeps track when the teardown it asks for is served. *)
Lemma handleRoute_keeps_track (r : Route) (os : list Outcome) (w : World) :
  tracked w -> teardown_served w (Navigation r) os ->
  tracked (fst (complete os (operation (Navigation r) w))).
Proof.
  destruct w as [a p].
  unfold teardown_served, operation, handleRoute, handleRoute_cleanup.
  cbn [fst upd currentChatSubscription set_hash]. intros Hw Hserved.
  destruct (currentChatSubscription a) as [ch|] eqn:Hsub.
  - destruct os as [|o os]; [exact Hw|]. subst o.
    cbn [complete snd fst perform].
    apply keeps_track_dispatch.
    unfold tracked in *.
    cbn [fst snd upd channels currentChatSubscription set_subscription set_hash] in *.
    rewrite Hsub in Hw. rewrite (remove_only_channel _ _ Hw). reflexivity.
  - apply keeps_track_dispatch. revert Hw.
    apply tracked_same; [reflexivity|]. cbn. congruence.
Qed.

(** When the operations on the messages page do not overlap, and the
    teardown of every navigation is served, the variable accounts for
    the open feeds at every suspension point: at most one is open. *)
Lemma one_at_a_time_at_most_one_feed
  (l : list (Operation * list Outcome)) :
  forall w,
    tracked w -> teardowns_served l w ->
    tracked (run_in_turn l w) /\
    List.length (channels (snd (run_in_turn l w))) <= 1.
Proof.
  induction l as [|[op os] l IH]; intros w Hw Hserved.
  - split; [exact Hw | apply tracked_at_most_one; exact Hw].
  - destruct Hserved as [Hop Hrest]. cbn [run_in_turn].
    apply IH; [|exact Hrest].
    destruct op as [r | v cId | v cId otherId]; cbn [operation].
    + apply handleRoute_keeps_track; assumption.
    + apply keeps_track_openConversation; exact Hw.
    + apply keeps_track_onsubmit_handler; exact Hw.
Qed.

End OneAtATime.

(** ** The subscription across operations *)

(** C3, as the program behaves: when a second conversation is opened
    while the first is still loading, both calls of [openConversation]
    find no subscription to tear down, and each opens a feed; once both
    have finished two feeds are open, and the variable holds the second
    only, so that no later teardown reaches the first. *)
Theorem C3_overlapping_opens_leave_two_feeds :
  exists sys : System,
    run two_quick_clicks (start (Some "a1") two_conversations) = Some sys /\
    all_finished sys = true /\
    live_subscriptions sys = [mkFeed 0 "a1-c3" 1; mkFeed 1 "a1-b2" 1] /\
    currentChatSubscription (fst (world sys)) = Some 1 /\
    exists sys' : System,
      run [Navigate (RouteOther "home"); Resume 3 Succeeds] sys = Some sys' /\
      currentChatSubscription (fst (world sys')) = None /\
      live_subscriptions sys' = [mkFeed 0 "a1-c3" 1].
Proof.
  eexists. split; [vm_compute; reflexivity|].
  split; [reflexivity|]. split; [reflexivity|]. split; [reflexivity|].
  eexists. split; [vm_compute; reflexivity|].
  split; reflexivity.
Qed.

(** * Further properties *)

(** ** The hash and the router *)

Section Hash.

Lemma split_fields_free (sep : ascii) (s : string) :
  forall x, In x (JS.split sep s) -> JS.count sep x = 0.
Proof.
  induction s as [|c s IH]; simpl; intros x Hx.
  - destruct Hx as [<- | []]. reflexivity.
  - destruct (Ascii.eqb c sep) eqn:E.
    + destruct Hx as [<- | Hx]; [reflexivity | auto].
    + destruct (JS.split sep s) as [|h t] eqn:Hs.
      * destruct Hx as [<- | []]. simpl. rewrite E. reflexivity.
      * destruct Hx as [<- | Hx].
        -- simpl. rewrite E. apply IH. left. reflexivity.
        -- apply IH. right. exact Hx.
Qed.

Lemma truthy_iff (s : string) : truthy s = true <-> s <> ""%string.
Proof. destruct s; simpl; split; congruence. Qed.

Lemma parseHash_link (route id : string) :
  truthy route = true -> JS.count "/" route = 0 ->
  truthy id = true -> JS.count "/" id = 0 ->
  parseHash (link_to route id) = (route, Some id).
Proof.
  intros Hr Hrs Hi His. unfold parseHash, link_to.
  cbn [append truthy strip_hash_prefix].
  rewrite split_at_sep by exact Hrs. rewrite split_without_sep by exact His.
  cbn [filter]. rewrite Hr, Hi. cbn [nth_error List.length Nat.ltb Nat.leb].
  destruct route; [discriminate | reflexivity].
Qed.

End Hash.

(** X1: a link [#/route/id] built from a route and an identifier that
    are not empty and hold no ['/'] is parsed back into that route and
    that identifier; without identifier, into the route and [null]. *)
Theorem parseHash_roundtrip (route id : string) :
  truthy route = true -> JS.count "/" route = 0 ->
  truthy id = true -> JS.count "/" id = 0 ->
  parseHash (link_to route id) = (route, Some id) /\
  parseHash ("#/" ++ route) = (route, None).
Proof.
  intros Hr Hrs Hi His. split; [apply parseHash_link; assumption|].
  unfold parseHash. cbn [append truthy strip_hash_prefix].
  rewrite split_without_sep by exact Hrs.
  cbn [filter]. rewrite Hr. cbn [nth_error List.length Nat.ltb Nat.leb].
  destruct route; [discriminate | reflexivity].
Qed.

Lemma parseHash_roundtrip_witness :
  parseHash (link_to "listing" "123") = ("listing", Some "123") /\
  parseHash ("#/" ++ "listing") = ("listing", None).
Proof.
  apply (parseHash_roundtrip "listing" "123"); reflexivity.
Defined.

(** X2: whatever the hash, the route [parseHash] returns is not empty
    and holds no ['/'], and the identifier, when there is one, is not
    empty and holds no ['/'] either. *)
Theorem parseHash_well_formed (location_hash : string) :
  let (route, id) := parseHash location_hash in
  route <> ""%string /\ JS.count "/" route = 0 /\
  forall i, id = Some i -> i <> ""%string /\ JS.count "/" i = 0.
Proof.
  unfold parseHash.
  set (hash := strip_hash_prefix _).
  set (parts := filter truthy (JS.split "/" hash)).
  assert (forall x, In x parts -> x <> ""%string /\ JS.count "/" x = 0) as Hparts.
  { intros x Hx. apply filter_In in Hx as [Hx Ht]. split.
    - apply truthy_iff. exact Ht.
    - eapply split_fields_free. exact Hx. }
  split; [|split].
  - destruct (nth_error parts 0) as [[|c s]|]; discriminate.
  - destruct (nth_error parts 0) as [[|c s]|] eqn:E; try reflexivity.
    apply nth_error_In in E. apply Hparts in E. tauto.
  - intros i Hi. destruct (1 <? List.length parts)%nat; [|discriminate].
    apply nth_error_In in Hi. auto.
Qed.

(** X3: the empty hash, and any hash made of ['#'] and slashes only,
    lead to the home page with no identifier. *)
Theorem parseHash_home (n : nat) :
  parseHash "" = ("home", None) /\
  parseHash (String "#" (slashes n)) = ("home", None).
Proof.
  split; [reflexivity|].
  assert (forall k, filter truthy (JS.split "/" (slashes k)) = []) as Hs.
  { induction k as [|k IH]; [reflexivity|]. simpl. exact IH. }
  unfold parseHash. cbn [truthy].
  destruct n as [|n]; cbn [slashes strip_hash_prefix].
  - reflexivity.
  - rewrite Hs. reflexivity.
Qed.




(** X5: for a visitor who is not signed in no hash leads to the new
    listing, messages, saved or admin page; and the admin page is
    rendered only for a signed-in user whose profile has [is_admin]. *)
Theorem router_guards (admin : option bool) (location_hash : string) :
  members_only (page_for None admin location_hash) = false /\
  forall user, page_for user admin location_hash = RenderAdminPage ->
               user <> None /\ admin = Some true.
Proof.
  unfold page_for. destruct (parseHash location_hash) as [route id].
  unfold handleRoute_switch. split.
  - repeat match goal with
           | |- context [String.eqb route ?r] => destruct (String.eqb route r)
           end; reflexivity.
  - intros user. destruct user as [u|]; destruct admin as [[|]|];
      repeat match goal with
             | |- context [String.eqb route ?r] => destruct (String.eqb route r)
             end;
      cbn; intros H; try discriminate H;
      (split; [discriminate | reflexivity]).
Qed.

(** X6: every link [renderNav] shows to a user leads, through
    [parseHash] and the switch of [handleRoute], to a page that is
    rendered for that user: none of them ends in a redirection. *)
Theorem nav_links_are_admitted
  (user : option string) (admin : option bool) (text href : string) :
  In (text, href) (renderNav user admin) ->
  is_redirect (page_for user admin href) = false.
Proof.
  unfold renderNav. intros H.
  destruct user as [u|]; [destruct admin as [[|]|]|];
    cbn [app] in H;
    repeat (destruct H as [H | H];
            [injection H as <- <-; reflexivity|]);
    destruct H.
Qed.

Lemma nav_links_are_admitted_witness :
  is_redirect (page_for (Some "a1") (Some true) "#/admin") = false.
Proof.
  apply (nav_links_are_admitted (Some "a1") (Some true) "Admin" "#/admin").
  simpl. tauto.
Defined.

(** ** Identifiers that hold the separator *)

Section Separator.

Lemma append_assoc (a b c : string) :
  ((a ++ b) ++ c = a ++ (b ++ c))%string.
Proof. induction a as [|x a IH]; simpl; [reflexivity | rewrite IH; reflexivity]. Qed.

Lemma first_field (sep : ascii) (s : string) :
  exists h, hd_error (JS.split sep s) = Some h /\ JS.count sep h = 0.
Proof.
  destruct (JS.split sep s) as [|h t] eqn:E.
  - exfalso. exact (split_not_nil sep s E).
  - exists h. split; [reflexivity|].
    apply (split_fields_free sep s). rewrite E. left. reflexivity.
Qed.

Lemma other_participant_first (me a rest : string) :
  JS.count "-" a = 0 ->
  other_participant me (a ++ String "-" rest)
  = if String.eqb a me then hd_error (JS.split "-" rest) else Some a.
Proof.
  intros Ha. unfold other_participant. rewrite split_at_sep by exact Ha.
  reflexivity.
Qed.

(** The parse of a joined pair, one of whose members holds a separator. *)
Lemma joined_pair_misparsed (u v : string) :
  JS.count "-" u <> 0 \/ JS.count "-" v <> 0 ->
  ~ (other_participant u (JS.join "-" [u; v]) = Some v /\
     other_participant v (JS.join "-" [u; v]) = Some u) /\
  (JS.count "-" u <> 0 -> JS.count "-" v <> 0 ->
   other_participant u (JS.join "-" [u; v]) <> Some v /\
   other_participant v (JS.join "-" [u; v]) <> Some u).
Proof.
  intros H. rewrite join_pair. simpl append.
  destruct (Nat.eq_dec (JS.count "-" u) 0) as [Hu | Hu].
  - (* only the second holds one *)
    destruct H as [H | Hv]; [contradiction|].
    split; [|intros Hu'; contradiction].
    intros [H1 _]. rewrite other_participant_first in H1 by exact Hu.
    rewrite String.eqb_refl in H1.
    destruct (first_field "-" v) as (h & Hh & Hc).
    rewrite Hh in H1. injection H1 as ->. contradiction.
  - (* the first holds one *)
    destruct (split_first "-" u Hu) as (a & b & -> & Ha).
    rewrite append_assoc. simpl append.
    assert (forall x, JS.count "-" x <> 0 -> String.eqb a x = false) as Hne.
    { intros x Hx. apply String.eqb_neq. intros ->. contradiction. }
    rewrite !other_participant_first by exact Ha.
    rewrite (Hne _ Hu).
    destruct (first_field "-" (b ++ String "-" v)) as (h & Hh & Hc).
    split.
    + intros [H1 H2]. injection H1 as H1. subst v.
      rewrite String.eqb_refl, Hh in H2. injection H2 as H2. subst h.
      contradiction.
    + intros _ Hv. rewrite (Hne _ Hv).
      split; intros Heq; injection Heq as Heq; [apply Hv | apply Hu];
        rewrite <- Heq; exact Ha.
Qed.

End Separator.

(** X7: when one of the two identifiers holds a ['-'], as a UUID does,
    the parse of [openConversation] cannot give both participants the
    other one's identifier; when both hold one, it gives neither of them
    the other one's identifier. *)
Theorem hyphen_breaks_counterpart (idA idB : string) :
  JS.contains "-" idA = true \/ JS.contains "-" idB = true ->
  ~ (other_participant idA (getConversationId idA idB) = Some idB /\
     other_participant idB (getConversationId idA idB) = Some idA) /\
  (JS.contains "-" idA = true -> JS.contains "-" idB = true ->
   other_participant idA (getConversationId idA idB) <> Some idB /\
   other_participant idB (getConversationId idA idB) <> Some idA).
Proof.
  assert (forall s, JS.contains "-" s = true <-> JS.count "-" s <> 0) as Hc.
  { intros s. unfold JS.contains. rewrite negb_true_iff, Nat.eqb_neq. tauto. }
  rewrite !Hc. intros H. unfold getConversationId.
  destruct (sort_pair_cases idA idB) as [-> | ->].
  - apply joined_pair_misparsed. exact H.
  - destruct (joined_pair_misparsed idB idA) as [H1 H2]; [tauto|].
    split; [tauto|]. intros HA HB. destruct (H2 HB HA). tauto.
Qed.

Lemma hyphen_breaks_counterpart_witness :
  ~ (other_participant "1f-a" (getConversationId "1f-a" "2c-b") = Some "2c-b" /\
     other_participant "2c-b" (getConversationId "1f-a" "2c-b") = Some "1f-a") /\
  (JS.contains "-" "1f-a" = true -> JS.contains "-" "2c-b" = true ->
   other_participant "1f-a" (getConversationId "1f-a" "2c-b") <> Some "2c-b" /\
   other_participant "2c-b" (getConversationId "1f-a" "2c-b") <> Some "1f-a").
Proof.
  apply (hyphen_breaks_counterpart "1f-a" "2c-b"). left. reflexivity.
Defined.

(** ** The case of letters in the email check *)

Section LowerCase.

Lemma lower_char_at (c : ascii) :
  Ascii.eqb (JS.lower_char c) "@" = Ascii.eqb c "@".
Proof. destruct c as [[] [] [] [] [] [] [] []]; reflexivity. Qed.

Lemma lower_char_twice (c : ascii) :
  JS.lower_char (JS.lower_char c) = JS.lower_char c.
Proof. destruct c as [[] [] [] [] [] [] [] []]; reflexivity. Qed.

Lemma toLowerCase_twice (s : string) :
  JS.toLowerCase (JS.toLowerCase s) = JS.toLowerCase s.
Proof.
  induction s as [|c s IH]; simpl; [reflexivity|].
  rewrite lower_char_twice, IH. reflexivity.
Qed.

Lemma split_toLowerCase (s : string) :
  JS.split "@" (JS.toLowerCase s) = map JS.toLowerCase (JS.split "@" s).
Proof.
  induction s as [|c s IH]; simpl; [reflexivity|].
  rewrite lower_char_at. destruct (Ascii.eqb c "@").
  - rewrite IH. reflexivity.
  - rewrite IH. destruct (JS.split "@" s); reflexivity.
Qed.

Lemma validStudentEmail_lower (s : string) :
  validStudentEmail (JS.VString (JS.toLowerCase s))
  = validStudentEmail (JS.VString s).
Proof.
  unfold validStudentEmail. rewrite !or_string_empty_default.
  rewrite split_toLowerCase, length_map.
  destruct (negb (List.length (JS.split "@" s) =? 2)%nat); [reflexivity|].
  rewrite nth_error_map.
  destruct (nth_error (JS.split "@" s) 1) as [d|]; [|reflexivity].
  simpl. rewrite toLowerCase_twice. reflexivity.
Qed.

End LowerCase.

(** X8: the sign-up check does not depend on the case of the letters:
    two addresses that are equal once lower-cased get the same answer. *)
Theorem validStudentEmail_ignores_case (s t : string) :
  JS.toLowerCase s = JS.toLowerCase t ->
  validStudentEmail (JS.VString s) = validStudentEmail (JS.VString t).
Proof.
  intros H. rewrite <- (validStudentEmail_lower s), <- (validStudentEmail_lower t).
  rewrite H. reflexivity.
Qed.

Lemma validStudentEmail_ignores_case_witness :
  validStudentEmail (JS.VString "Ann@UNI.Ca")
  = validStudentEmail (JS.VString "ann@uni.ca").
Proof.
  apply (validStudentEmail_ignores_case "Ann@UNI.Ca" "ann@uni.ca"). reflexivity.
Defined.

(** ** What the chat form sends *)

Section TrimTwice.

Lemma trimEnd_head (c : ascii) (r : string) :
  JS.is_space c = false -> exists r', JS.trimEnd (String c r) = String c r'.
Proof.
  intros Hc. simpl. rewrite Hc. destruct (JS.trimEnd r); eauto.
Qed.

Lemma trimEnd_twice (s : string) : JS.trimEnd (JS.trimEnd s) = JS.trimEnd s.
Proof.
  induction s as [|c s IH]; [reflexivity|].
  simpl. destruct (JS.trimEnd s) as [|d t] eqn:E.
  - destruct (JS.is_space c) eqn:Hc; [reflexivity|]. simpl. rewrite Hc. reflexivity.
  - change (JS.trimEnd (String c (String d t)) = String c (String d t)).
    simpl in IH. simpl. destruct (JS.trimEnd t) as [|e u] eqn:Et.
    + destruct (JS.is_space d) eqn:Hd; [discriminate|]. rewrite IH. reflexivity.
    + rewrite IH. reflexivity.
Qed.

(** Trimming what is trimmed changes nothing. *)
Lemma trim_twice (s : string) : JS.trim (JS.trim s) = JS.trim s.
Proof.
  unfold JS.trim.
  destruct (trimStart_cases s) as [[-> _] | (c & r & -> & Hc & _)]; [reflexivity|].
  destruct (trimEnd_head c r Hc) as (r' & Hr).
  rewrite Hr at 1. simpl JS.trimStart. rewrite Hc. rewrite <- Hr.
  apply trimEnd_twice.
Qed.

End TrimTwice.

(** X9: whenever the submit handler calls the store, the call is the
    insert of one message into the conversation of the form, sent in the
    name of the signed-in user, whose content is the input trimmed: it is
    not empty and trimming it again changes nothing. *)
Theorem sent_message_is_trimmed
  (v : nat) (cId : string) (otherId : option string) (w w' : World)
  (c : Call) (k : Reply -> Step) :
  onsubmit_handler v cId otherId w = (w', Await c k) ->
  exists me text,
    currentUser (fst w) = Some me /\
    text = JS.trim (messageInput (fst w)) /\
    c = CallInsertMessage cId me otherId text /\
    text <> ""%string /\ JS.trim text = text /\ w' = w.
Proof.
  unfold onsubmit_handler, with_user. intros H.
  destruct (JS.trim (messageInput (fst w))) as [|x s] eqn:E; [discriminate|].
  destruct (currentUser (fst w)) as [me|]; [|discriminate].
  injection H as <- <- _.
  exists me, (String x s). rewrite <- E.
  repeat split; try reflexivity.
  - rewrite E. discriminate.
  - apply trim_twice.
Qed.

Lemma sent_message_is_trimmed_witness :
  exists me text,
    Some "a1" = Some me /\
    text = JS.trim "  hello  " /\
    CallInsertMessage "a1-b2" "a1" (Some "b2") "hello"
    = CallInsertMessage "a1-b2" me (Some "b2") text /\
    text <> ""%string /\ JS.trim text = text /\
    (mkApp (Some "a1") None (RouteOther "home") "messages" 1 [] "" []
       "  hello  " None [],
     two_conversations)
    = (mkApp (Some "a1") None (RouteOther "home") "messages" 1 [] "" []
         "  hello  " None [],
       two_conversations).
Proof.
  refine (sent_message_is_trimmed 1 "a1-b2" (Some "b2")
            (mkApp (Some "a1") None (RouteOther "home") "messages" 1 [] "" []
               "  hello  " None [], two_conversations) _ _ _ _).
  reflexivity.
Defined.

(** ** From the form to the chat area *)

Lemma replace_nth_last {A : Type} (l : list A) (x y : A) :
  replace_nth (List.length l) y (l ++ [x]) = l ++ [y].
Proof. induction l as [|a l IH]; simpl; [reflexivity | rewrite IH; reflexivity]. Qed.

Lemma nth_error_last {A : Type} (l : list A) (x : A) :
  nth_error (l ++ [x]) (List.length l) = Some x.
Proof. induction l as [|a l IH]; simpl; [reflexivity | exact IH]. Qed.

(** X10: with the conversation of the form open on its one feed, a
    submitted message that the store accepts and the feed delivers ends
    up as the last bubble of the chat area, on the sender's side, with
    the input field emptied and no event left over. *)
Theorem sent_message_arrives
  (sys : System) (me cId : string) (otherId : option string) (f : Feed) :
  on_messages_page sys = true ->
  currentUser (fst (world sys)) = Some me ->
  onsubmit (fst (world sys)) = Some (cId, otherId) ->
  JS.trim (messageInput (fst (world sys))) <> ""%string ->
  channels (snd (world sys)) = [f] ->
  feed_conv f = cId -> feed_view f = view (fst (world sys)) ->
  pending (snd (world sys)) = [] ->
  exists sys',
    run [Submit; Resume (List.length (tasks sys)) Succeeds; Deliver] sys
    = Some sys' /\
    chatMessages (fst (world sys'))
    = chatMessages (fst (world sys))
      ++ [Bubble true (JS.trim (messageInput (fst (world sys))))] /\
    messageInput (fst (world sys')) = ""%string /\
    pending (snd (world sys')) = [] /\
    tasks sys' = tasks sys ++ [Finished].
Proof.
  destruct sys as [[a p] ts]. cbn [world tasks fst snd].
  intros Hpage Hme Hon Htrim Hch Hconv Hview Hpend.
  destruct (onsubmit_handler_sends (view a) cId me otherId (a, p) Hme Htrim)
    as (k & Hrun & _ & Hk).
  cbn [fst snd] in Hrun.
  cbn [run]. unfold step at 1. rewrite Hpage. cbn [world fst snd tasks].
  rewrite Hon. unfold spawn. cbn [world tasks]. rewrite Hrun.
  unfold step at 1. cbn [world tasks fst snd]. rewrite nth_error_last.
  cbn [perform]. rewrite Hk. rewrite replace_nth_last.
  unfold step. cbn [world tasks fst snd upd pending].
  rewrite Hpend, Hch. cbn [app events_for filter map conversation_id].
  rewrite Hconv, String.eqb_refl. cbn [map filter find channels feed_id].
  rewrite Nat.eqb_refl.
  eexists. split; [reflexivity|].
  unfold feed_callback, addMessageToChat, drop_pending, upd, on_view.
  cbn [fst snd]. rewrite Nat.eqb_refl. cbn [currentUser set_messageInput].
  rewrite Hme. cbn [fst snd view set_messageInput]. rewrite Hview, Nat.eqb_refl.
  cbn. rewrite String.eqb_refl. repeat split; reflexivity.
Qed.

Lemma sent_message_arrives_witness :
  let sys := mkSystem
               (mkApp (Some "a1") (Some 0) (RouteMessages (Some "a1-b2"))
                  "messages" 1 [] "Bo" [Bubble false "hi"] " hello "
                  (Some ("a1-b2", Some "b2")) [],
                mkPlatform [] [] [mkFeed 0 "a1-b2" 1] 1 0 0 []) [] in
  exists sys',
    run [Submit; Resume 0 Succeeds; Deliver] sys = Some sys' /\
    chatMessages (fst (world sys')) = [Bubble false "hi"; Bubble true "hello"] /\
    messageInput (fst (world sys')) = ""%string /\
    pending (snd (world sys')) = [] /\
    tasks sys' = [Finished].
Proof.
  apply (sent_message_arrives
           (mkSystem
              (mkApp (Some "a1") (Some 0) (RouteMessages (Some "a1-b2"))
                 "messages" 1 [] "Bo" [Bubble false "hi"] " hello "
                 (Some ("a1-b2", Some "b2")) [],
               mkPlatform [] [] [mkFeed 0 "a1-b2" 1] 1 0 0 []) [])
           "a1" "a1-b2" (Some "b2") (mkFeed 0 "a1-b2" 1));
    try reflexivity.
  discriminate.
Defined.

(** ** Switching conversations *)

(** X11: in [openConversation] the teardown of the previous feed is not
    guarded: when it fails, the function stops there.  Nothing of the
    new conversation is loaded or shown, no feed is opened, and the
    variable still holds the previous subscription. *)
Theorem failed_teardown_cancels_open
  (v : nat) (cId : string) (w : World) (ch : nat) (o : Outcome)
  (os : list Outcome) :
  currentChatSubscription (fst w) = Some ch ->
  o <> Succeeds ->
  complete (o :: os) (openConversation v cId w) = (w, Crashed) /\
  calls (o :: os) (openConversation v cId w) = [CallUnsubscribe ch].
Proof.
  intros Hsub Ho. unfold openConversation. rewrite Hsub.
  destruct w as [a p].
  destruct o; [contradiction | |]; destruct os; cbn; split; reflexivity.
Qed.

Lemma failed_teardown_cancels_open_witness :
  let w := (mkApp (Some "a1") (Some 0) (RouteMessages None) "messages" 1 []
              "Bo" [Bubble false "hi"] "" (Some ("a1-b2", Some "b2")) [],
            mkPlatform [] [] [mkFeed 0 "a1-b2" 1] 1 0 0 []) in
  complete [Throws; Succeeds; Succeeds] (openConversation 1 "a1-c3" w)
  = (w, Crashed) /\
  calls [Throws; Succeeds; Succeeds] (openConversation 1 "a1-c3" w)
  = [CallUnsubscribe 0].
Proof.
  apply (failed_teardown_cancels_open 1 "a1-c3"
           (mkApp (Some "a1") (Some 0) (RouteMessages None) "messages" 1 []
              "Bo" [Bubble false "hi"] "" (Some ("a1-b2", Some "b2")) [],
            mkPlatform [] [] [mkFeed 0 "a1-b2" 1] 1 0 0 [])
           0 Throws [Succeeds; Succeeds]).
  - reflexivity.
  - discriminate.
Defined.

(** X12: when a conversation is opened while another one is open, and
    the store serves the teardown and the two loads, the feed of the
    previous conversation is closed and the one feed open is that of
    the new conversation; an insert into any other conversation then
    reaches no feed. *)
Theorem switch_leaves_one_feed
  (v : nat) (cId me : string) (w : World) (ch : nat) :
  tracked w ->
  currentChatSubscription (fst w) = Some ch ->
  currentUser (fst w) = Some me -> view (fst w) = v ->
  let after := complete [Succeeds; Succeeds; Succeeds]
                 (openConversation v cId w) in
  snd after = Finished /\
  channels (snd (fst after)) = [mkFeed (next_channel (snd w)) cId v] /\
  currentChatSubscription (fst (fst after)) = Some (next_channel (snd w)) /\
  forall row, conversation_id row <> cId ->
              events_for row (channels (snd (fst after))) = [].
Proof.
  destruct w as [a p]. cbn [fst snd]. intros Ht Hsub Hme Hv.
  assert (remove_channel ch (channels p) = []) as Hrm.
  { apply remove_only_channel. unfold tracked in Ht. cbn [fst snd] in Ht.
    rewrite Hsub in Ht. exact Ht. }
  set (w1 := (set_subscription None a,
              fst (perform (CallUnsubscribe ch) Succeeds p))).
  assert (complete [Succeeds; Succeeds; Succeeds] (openConversation v cId (a, p))
          = complete [Succeeds; Succeeds] (openConversation_body v cId w1))
    as Heq.
  { unfold openConversation. cbn [fst]. rewrite Hsub. reflexivity. }
  cbv zeta. rewrite Heq.
  destruct (openConversation_body_alone me v cId w1 Hme Hv)
    as (Hfin & _ & Hs & Hc & _).
  rewrite Hfin, Hc, Hs. unfold w1. cbn [perform fst snd channels next_channel].
  rewrite Hrm. cbn [app].
  repeat split. intros row Hrow. unfold events_for. cbn [filter feed_conv].
  destruct (String.eqb cId (conversation_id row)) eqn:E; [|reflexivity].
  apply String.eqb_eq in E. congruence.
Qed.

Lemma switch_leaves_one_feed_witness :
  let w := (mkApp (Some "a1") (Some 0) (RouteMessages None) "messages" 1 []
              "Bo" [Bubble false "hi"] "" (Some ("a1-b2", Some "b2")) [],
            mkPlatform [] [] [mkFeed 0 "a1-b2" 1] 1 0 0 []) in
  let after := complete [Succeeds; Succeeds; Succeeds]
                 (openConversation 1 "a1-c3" w) in
  snd after = Finished /\
  channels (snd (fst after)) = [mkFeed 1 "a1-c3" 1] /\
  currentChatSubscription (fst (fst after)) = Some 1 /\
  forall row, conversation_id row <> "a1-c3"%string ->
              events_for row (channels (snd (fst after))) = [].
Proof.
  apply (switch_leaves_one_feed 1 "a1-c3" "a1"
           (mkApp (Some "a1") (Some 0) (RouteMessages None) "messages" 1 []
              "Bo" [Bubble false "hi"] "" (Some ("a1-b2", Some "b2")) [],
            mkPlatform [] [] [mkFeed 0 "a1-b2" 1] 1 0 0 [])
           0); reflexivity.
Defined.

(** ** The groups of the conversation list *)

Section Partition.

Lemma concat_map_push (k : string) (m : Message) (g : ConvoMap) :
  map_has k g = true ->
  Permutation (concat (map snd (map_push k m g))) (m :: concat (map snd g)).
Proof.
  induction g as [|[k' v'] g IH]; [discriminate|].
  unfold map_has. cbn [existsb fst map_push]. fold (map_has k g).
  destruct (String.eqb k' k); cbn [orb map snd concat].
  - intros _. rewrite <- app_assoc. cbn [app].
    apply Permutation_sym, Permutation_middle.
  - intros H. eapply perm_trans; [apply Permutation_app_head, IH, H|].
    apply Permutation_sym, Permutation_middle.
Qed.

Lemma concat_group_step (g : ConvoMap) (m : Message) :
  Permutation (concat (map snd (group_step g m))) (m :: concat (map snd g)).
Proof.
  destruct (map_has (conversation_id m) g) eqn:H.
  - rewrite group_step_old by exact H. apply concat_map_push. exact H.
  - rewrite group_step_new by exact H.
    rewrite map_app, concat_app. cbn [map snd concat app].
    apply Permutation_sym, Permutation_cons_append.
Qed.

End Partition.

(** X13: the grouping loop of [loadConversations] loses no row and
    repeats none: the groups of the map, put end to end, are the rows
    it was given, in another order. *)
Theorem groupMessages_partition (data : list Message) :
  Permutation (concat (map snd (groupMessages data))) data.
Proof.
  induction data as [|m data IH] using rev_ind; [constructor|].
  rewrite groupMessages_snoc.
  eapply perm_trans; [apply concat_group_step|].
  eapply perm_trans; [apply perm_skip, IH|].
  apply Permutation_cons_append.
Qed.

(** ** The messages page when the list cannot be loaded *)

(** X14: when the query of the conversation list comes back with an
    error, [renderMessagesPage] shows "Unable to load messages." once,
    leaves the list empty, and goes on to open the conversation the
    hash names. *)
Theorem failed_list_still_opens
  (w : World) (me cId : string) (e : StoreError) (os : list Outcome) :
  currentUser (fst w) = Some me ->
  cId <> ""%string ->
  let w1 := upd (showNotification "Unable to load messages." "error")
              (upd fresh_messages_page w) in
  complete (Fails e :: os) (renderMessagesPage (Some cId) w)
  = complete os (openConversation (S (view (fst w))) cId w1) /\
  calls [Fails e] (renderMessagesPage (Some cId) w)
  = CallSelectMessages (listByParticipant me)
    :: calls [] (openConversation (S (view (fst w))) cId w1) /\
  convList (fst w1) = [] /\
  notifications (fst w1)
  = notifications (fst w) ++ [("Unable to load messages."%string, "error"%string)].
Proof.
  destruct w as [a p]. cbn [fst]. intros Hme Hc.
  destruct cId as [|c s]; [contradiction|].
  cbv zeta. unfold renderMessagesPage, loadConversations, with_user.
  unfold upd, on_view, fresh_messages_page, set_convList.
  cbn [fst snd view currentUser]. rewrite Nat.eqb_refl.
  cbn [fst snd view currentUser]. rewrite Hme.
  cbn [complete calls snd fst perform].
  repeat split; reflexivity.
Qed.

Lemma failed_list_still_opens_witness :
  let w := start (Some "a1") two_conversations in
  let w1 := upd (showNotification "Unable to load messages." "error")
              (upd fresh_messages_page (world w)) in
  complete [Fails StoreFailure] (renderMessagesPage (Some "a1-b2") (world w))
  = complete [] (openConversation 1 "a1-b2" w1) /\
  calls [Fails StoreFailure] (renderMessagesPage (Some "a1-b2") (world w))
  = CallSelectMessages (listByParticipant "a1")
    :: calls [] (openConversation 1 "a1-b2" w1) /\
  convList (fst w1) = [] /\
  notifications (fst w1)
  = [("Unable to load messages."%string, "error"%string)].
Proof.
  apply (failed_list_still_opens (world (start (Some "a1") two_conversations))
           "a1" "a1-b2" StoreFailure []).
  - reflexivity.
  - discriminate.
Defined.

(** ** Saved listings *)

Section IdSets.

Lemma set_has_In (x : string) (s : list string) :
  set_has x s = true <-> In x s.
Proof.
  unfold set_has. rewrite existsb_exists. split.
  - intros (y & Hy & E). apply String.eqb_eq in E. subst. exact Hy.
  - intros H. exists x. split; [exact H | apply String.eqb_refl].
Qed.

Lemma set_has_add (x y : string) (s : list string) :
  set_has y (set_add x s) = true <-> y = x \/ set_has y s = true.
Proof.
  unfold set_add. destruct (set_has x s) eqn:E.
  - split; [auto|]. intros [-> | H]; assumption.
  - rewrite !set_has_In, in_app_iff. simpl. intuition.
Qed.

Lemma set_has_delete (x y : string) (s : list string) :
  set_has y (set_delete x s) = true <-> y <> x /\ set_has y s = true.
Proof.
  unfold set_delete. rewrite !set_has_In, filter_In, negb_true_iff, String.eqb_neq.
  tauto.
Qed.

Lemma set_add_NoDup (x : string) (s : list string) :
  NoDup s -> NoDup (set_add x s).
Proof.
  intros H. unfold set_add. destruct (set_has x s) eqn:E; [exact H|].
  apply NoDup_app; [exact H | repeat constructor; auto |].
  intros y Hy [<- | []]. apply set_has_In in Hy. congruence.
Qed.

Lemma add_all_spec (data : list string) :
  forall acc,
    NoDup acc ->
    let ids := fold_left (fun ids listing => set_add listing ids) data acc in
    NoDup ids /\ forall y, In y ids <-> In y acc \/ In y data.
Proof.
  induction data as [|x data IH]; intros acc Hacc; cbn [fold_left].
  - split; [exact Hacc|]. intros y. simpl. tauto.
  - destruct (IH (set_add x acc) (set_add_NoDup x acc Hacc)) as [Hnd Hin].
    split; [exact Hnd|]. intros y. rewrite Hin.
    rewrite <- (set_has_In y (set_add x acc)), set_has_add, set_has_In.
    simpl. intuition.
Qed.

Lemma same_row_iff (r r' : string * string) : same_row r r' = true <-> r = r'.
Proof.
  destruct r, r'. unfold same_row. cbn [fst snd].
  rewrite andb_true_iff, !String.eqb_eq. split; [intros [-> ->] | intros H; injection H]; auto.
Qed.

End IdSets.

(** X15: after [loadSavedListingIds] with its query served, the set
    holds exactly the listings the store has saved for the user, each
    once; for a visitor who is not signed in, and when the query fails,
    the set is empty whatever it held before. *)
Theorem loadSavedListingIds_spec (user : option string) (o : Outcome) (s : Saved) :
  let after := fst (loadSavedListingIds user o s) in
  saved_listings after = saved_listings s /\
  NoDup (savedListingIds after) /\
  (forall me, user = Some me -> o = Succeeds -> in_sync me after) /\
  (user = None \/ o <> Succeeds -> savedListingIds after = []).
Proof.
  cbv zeta. unfold loadSavedListingIds.
  destruct user as [me|]; cbn [fst].
  - destruct o; cbn [perform_saved fst savedListingIds saved_listings].
    + destruct (add_all_spec
                  (map snd (filter (fun r => String.eqb (fst r) me) (saved_listings s)))
                  [] (NoDup_nil _)) as [Hnd Hin].
      split; [reflexivity|]. split; [exact Hnd|]. split.
      * intros me' Hme _. injection Hme as <-. intros listing.
        cbn [savedListingIds saved_listings]. rewrite set_has_In, Hin, in_map_iff.
        split.
        -- intros [[] | ((u, l) & Hl & Hr)]. cbn [snd] in Hl. subst l.
           apply filter_In in Hr as [Hr Hu]. cbn [fst] in Hu.
           apply String.eqb_eq in Hu. subst u. exact Hr.
        -- intros H. right. exists (me, listing). split; [reflexivity|].
           apply filter_In. split; [exact H | apply String.eqb_refl].
      * intros [H | H]; [discriminate | contradiction].
    + split; [reflexivity|]. split; [constructor|].
      split; [intros; discriminate | intros; reflexivity].
    + split; [reflexivity|]. split; [constructor|].
      split; [intros; discriminate | intros; reflexivity].
  - split; [reflexivity|]. split; [constructor|].
    split; [intros; discriminate | intros; reflexivity].
Qed.

(** X16: a click on a heart whose call the store serves keeps the
    hearts in agreement with the store: a saved listing loses its row
    and leaves the set, an unsaved one gets its row and joins the set. *)
Theorem toggleSaved_keeps_sync (me listing : string) (s : Saved) :
  in_sync me s ->
  let after := fst (toggleSaved (Some me) listing Succeeds s) in
  in_sync me after /\
  set_has listing (savedListingIds after)
  = negb (set_has listing (savedListingIds s)).
Proof.
  intros Hsync. cbv zeta. unfold toggleSaved.
  destruct (set_has listing (savedListingIds s)) eqn:Hhas.
  - cbn [perform_saved fst]. split.
    + intros l. cbn [savedListingIds saved_listings].
      rewrite set_has_delete, (Hsync l), filter_In, negb_true_iff.
      split.
      * intros [Hne Hin]. split; [exact Hin|].
        destruct (same_row (me, listing) (me, l)) eqn:E; [|reflexivity].
        apply same_row_iff in E. congruence.
      * intros [Hin Hne]. split; [|exact Hin]. intros ->.
        rewrite (proj2 (same_row_iff _ _) eq_refl) in Hne. discriminate.
    + cbn [savedListingIds negb].
      destruct (set_has listing (set_delete listing (savedListingIds s))) eqn:E;
        [|reflexivity].
      apply set_has_delete in E. tauto.
  - assert (existsb (same_row (me, listing)) (saved_listings s) = false) as Hfree.
    { destruct (existsb (same_row (me, listing)) (saved_listings s)) eqn:E;
        [|reflexivity].
      apply existsb_exists in E as (r & Hr & Hrow).
      apply same_row_iff in Hrow. subst r.
      apply Hsync in Hr. congruence. }
    cbn [perform_saved]. rewrite Hfree. cbn [fst]. split.
    + intros l. cbn [savedListingIds saved_listings].
      rewrite set_has_add, (Hsync l), in_app_iff. simpl. split.
      * intros [-> | H]; auto.
      * intros [H | [H | []]]; [auto|]. injection H as ->. auto.
    + cbn [savedListingIds negb]. apply set_has_add. auto.
Qed.

Lemma toggleSaved_keeps_sync_witness :
  let s := mkSaved ["l1"] [("a1", "l1"); ("b2", "l7")] in
  let after := fst (toggleSaved (Some "a1") "l2" Succeeds s) in
  in_sync "a1" after /\
  set_has "l2" (savedListingIds after) = negb (set_has "l2" (savedListingIds s)).
Proof.
  apply (toggleSaved_keeps_sync "a1" "l2"
           (mkSaved ["l1"] [("a1", "l1"); ("b2", "l7")])).
  intros l. simpl. rewrite orb_false_r, String.eqb_eq. split.
  - intros ->. left. reflexivity.
  - intros [H | [H | []]]; [injection H as <-; reflexivity | discriminate].
Defined.

(** X17: the click handler does not read the result of its call: when
    the store reports an error the heart and the set flip all the same
    while the table keeps its rows, so that hearts that agreed with the
    store no longer do. *)
Theorem toggleSaved_ignores_errors
  (me listing : string) (e : StoreError) (s : Saved) :
  in_sync me s ->
  let after := fst (toggleSaved (Some me) listing (Fails e) s) in
  saved_listings after = saved_listings s /\
  set_has listing (savedListingIds after)
  = negb (set_has listing (savedListingIds s)) /\
  ~ in_sync me after.
Proof.
  intros Hsync. cbv zeta.
  assert (saved_listings (fst (toggleSaved (Some me) listing (Fails e) s))
          = saved_listings s /\
          set_has listing
            (savedListingIds (fst (toggleSaved (Some me) listing (Fails e) s)))
          = negb (set_has listing (savedListingIds s))) as [Hrows Hflip].
  { unfold toggleSaved.
    destruct (set_has listing (savedListingIds s)) eqn:Hhas;
      cbn [perform_saved fst saved_listings savedListingIds negb];
      (split; [reflexivity|]).
    - destruct (set_has listing (set_delete listing (savedListingIds s))) eqn:E;
        [|reflexivity].
      apply set_has_delete in E. tauto.
    - apply set_has_add. auto. }
  split; [exact Hrows|]. split; [exact Hflip|].
  intros Hafter. specialize (Hafter listing). specialize (Hsync listing).
  rewrite Hrows, Hflip in Hafter.
  destruct (set_has listing (savedListingIds s)); cbn [negb] in Hafter.
  - assert (false = true) by (apply Hafter, Hsync; reflexivity). discriminate.
  - assert (false = true) by (apply Hsync, Hafter; reflexivity). discriminate.
Qed.

Lemma toggleSaved_ignores_errors_witness :
  let s := mkSaved [] [] in
  let after := fst (toggleSaved (Some "a1") "l2" (Fails AccessDenied) s) in
  saved_listings after = [] /\
  set_has "l2" (savedListingIds after) = negb (set_has "l2" []) /\
  ~ in_sync "a1" after.
Proof.
  apply (toggleSaved_ignores_errors "a1" "l2" AccessDenied (mkSaved [] [])).
  intros l. simpl. split; [discriminate | contradiction].
Defined.



(** ** Ratings *)

Section Stars.

Lemma click_star_range (idx : nat) (sel : Z) :
  (0 <= sel <= 5)%Z -> (0 <= click_star idx sel <= 5)%Z.
Proof.
  intros H. unfold click_star, star_values.
  do 5 (destruct idx as [|idx]; [simpl; lia|]). destruct idx; simpl; exact H.
Qed.

Lemma selected_after_range (clicks : list nat) :
  (0 <= selected_after clicks <= 5)%Z.
Proof.
  unfold selected_after.
  assert (forall sel, (0 <= sel <= 5)%Z ->
            (0 <= fold_left (fun s idx => click_star idx s) clicks sel <= 5)%Z)
    as H.
  { induction clicks as [|idx clicks IH]; intros sel Hs; [exact Hs|].
    apply IH, click_star_range, Hs. }
  apply H. lia.
Qed.

End Stars.

(** X19: whatever the user clicks and whatever the store answers, a
    rating the modal adds to the table is between 1 and 5, is for the
    listing of the page and is in the name of the signed-in user; with
    no star selected nothing is sent and nothing changes. *)
Theorem submitRating_in_range
  (user : option string) (listing : string) (snapshot_sum snapshot_count : Z)
  (clicks : list nat) (comment : string) (o1 o2 : Outcome) (st : RatingStore) :
  let after := submitRating user listing snapshot_sum snapshot_count
                 (selected_after clicks) comment o1 o2 st in
  (forall row, In row (ratings (fst after)) ->
     In row (ratings st) \/
     ((1 <= rating_value row <= 5)%Z /\ rating_listing row = listing /\
      user = Some (rating_user row))) /\
  (selected_after clicks = 0%Z -> after = (st, PleaseSelect)).
Proof.
  cbv zeta. pose proof (selected_after_range clicks) as Hr.
  unfold submitRating.
  destruct (selected_after clicks <? 1)%Z eqn:E.
  - split; [auto | reflexivity].
  - apply Z.ltb_ge in E. split; [|intros H; lia].
    intros row.
    destruct user as [me|]; [|auto].
    destruct o1, o2; cbn [fst ratings]; auto;
      rewrite in_app_iff; (intros [H | [<- | []]]; [auto|]);
      right; cbn; (split; [lia | auto]).
Qed.






(** ** The images of a listing *)

Section Uploads.


End Uploads.



(** ** Operations in turn *)

Lemma one_at_a_time_at_most_one_feed_witness :
  let l := [(Navigation (RouteMessages None), [Succeeds; Succeeds; Succeeds]);
            (OpenConversation 1 "a1-c3", [Succeeds; Succeeds]);
            (OpenConversation 1 "a1-b2", [Succeeds; Succeeds; Succeeds]);
            (SendMessage 1 "a1-b2" (Some "b2"), [Fails AccessDenied]);
            (Navigation (RouteOther "home"), [Succeeds])] in
  let w := world (start (Some "a1") two_conversations) in
  tracked (run_in_turn l w) /\
  List.length (channels (snd (run_in_turn l w))) <= 1.
Proof.
  apply (one_at_a_time_at_most_one_feed
           [(Navigation (RouteMessages None), [Succeeds; Succeeds; Succeeds]);
            (OpenConversation 1 "a1-c3", [Succeeds; Succeeds]);
            (OpenConversation 1 "a1-b2", [Succeeds; Succeeds; Succeeds]);
            (SendMessage 1 "a1-b2" (Some "b2"), [Fails AccessDenied]);
            (Navigation (RouteOther "home"), [Succeeds])]
           (world (start (Some "a1") two_conversations))).
  - reflexivity.
  - vm_compute. repeat split.
Defined.

(** ** Sign-up *)

Lemma validStudentEmail_accepts (email : string) :
  validStudentEmail (JS.VString email) = Some true ->
  exists l d, email = (l ++ String "@" d)%string /\
              JS.count "@" l = 0 /\ JS.count "@" d = 0 /\
              exists p, JS.toLowerCase d = (p ++ ".ca")%string.
Proof.
  destruct (Nat.eq_dec (JS.count "@" email) 1) as [H1 | H1].
  - destruct (split_first "@" email) as (l & d & -> & Hl); [lia|].
    rewrite validStudentEmail_one_at by exact H1.
    intros H. injection H as H. apply endsWith_spec in H.
    rewrite count_app in H1. simpl in H1.
    exists l, d. split; [reflexivity|]. split; [exact Hl|]. split; [lia | exact H].
  - unfold validStudentEmail. rewrite or_string_empty_default, split_length.
    destruct (JS.count "@" email) as [|[|n]]; cbn; try discriminate.
    contradiction.
Qed.

(** X24: the sign-up form asks for an account only when the name, the
    email, the password and the school are filled in and the email,
    trimmed, holds one ['@'] followed by a domain that ends with ['.ca']
    whatever the case of its letters; the name, the email and the school
    are sent trimmed. *)
Theorem signup_only_for_ca_addresses
  (fullname_input email_input password school_input program_input : string)
  (email pw full_name school program : string) :
  signup_submit fullname_input email_input password school_input program_input
  = SignUpCall email pw full_name school program ->
  email = JS.trim email_input /\ pw = password /\ pw <> ""%string /\
  full_name = JS.trim fullname_input /\ full_name <> ""%string /\
  school = JS.trim school_input /\ school <> ""%string /\
  program = JS.trim program_input /\
  exists l d, email = (l ++ String "@" d)%string /\
              JS.count "@" l = 0 /\ JS.count "@" d = 0 /\
              exists p, JS.toLowerCase d = (p ++ ".ca")%string.
Proof.
  unfold signup_submit.
  destruct (truthy (JS.trim fullname_input)) eqn:Hf; [|discriminate].
  destruct (truthy (JS.trim email_input)) eqn:He; [|discriminate].
  destruct (truthy password) eqn:Hp; [|discriminate].
  destruct (truthy (JS.trim school_input)) eqn:Hs; [|discriminate].
  cbn [negb orb].
  destruct (validStudentEmail (JS.VString (JS.trim email_input)))
    as [[|]|] eqn:Hv; try discriminate.
  intros H. injection H as <- <- <- <- <-.
  apply truthy_iff in Hf, Hp, Hs.
  repeat (split; [first [reflexivity | assumption]|]).
  apply validStudentEmail_accepts. exact Hv.
Qed.

Lemma signup_only_for_ca_addresses_witness :
  "ann@uni.ca"%string = JS.trim " ann@uni.ca " /\ "secret"%string = "secret"%string /\
  "secret"%string <> ""%string /\
  "Ann"%string = JS.trim "Ann " /\ "Ann"%string <> ""%string /\
  "Uni"%string = JS.trim "Uni" /\ "Uni"%string <> ""%string /\
  ""%string = JS.trim "" /\
  exists l d, "ann@uni.ca"%string = (l ++ String "@" d)%string /\
              JS.count "@" l = 0 /\ JS.count "@" d = 0 /\
              exists p, JS.toLowerCase d = (p ++ ".ca")%string.
Proof.
  apply (signup_only_for_ca_addresses "Ann " " ann@uni.ca " "secret" "Uni" ""
           "ann@uni.ca" "secret" "Ann" "Uni" "").
  reflexivity.
Defined.
